(** * mailfree: the client-side translator (class [I18n])

    A shallow embedding of [public/js/i18n.js] and of the second copy of the
    same class that the repository carries, with the properties of the
    specification proved about it.

    Layout: the JavaScript values a translation file parses to and the
    lookup [t]; the document tree the class rewrites; the state of the
    class, of the preference store and of the host; the methods; the
    reference definitions taken from the specification; the theorems. *)

From Stdlib Require Import Ascii String Floats.
From stdpp Require Import gmap strings list fin_maps.

Set Warnings "-register-all".
Set Default Proof Using "Type".

Open Scope string_scope.

(** ** Strings

    A JavaScript string is modelled by its UTF-8 bytes.  The program only
    compares strings, joins them and cuts them at ['.'] and [':']; both
    are ASCII, and an ASCII byte never occurs inside the encoding of another
    character, so cutting the bytes cuts the string at the same places. *)

(** [s.split(sep)] for a separator of one character: the pieces between the
    separators, in order; never the empty list. *)
Fixpoint split (sep : ascii) (s : string) : list string :=
  match s with
  | EmptyString => [EmptyString]
  | String c rest =>
      if Ascii.eqb c sep then EmptyString :: split sep rest
      else match split sep rest with
           | piece :: pieces => String c piece :: pieces
           | [] => [String c EmptyString]
           end
  end.

(** [a || b] on two strings: the empty string is the only falsy one. *)
Definition or_else (a b : string) : string :=
  match a with
  | EmptyString => b
  | _ => a
  end.

(** ASCII lower-casing, as the DOM applies it to attribute names. *)
Definition ascii_lower (c : ascii) : ascii :=
  let n := nat_of_ascii c in
  if (65 <=? n)%nat && (n <=? 90)%nat then ascii_of_nat (n + 32) else c.

Fixpoint lowercase (s : string) : string :=
  match s with
  | EmptyString => EmptyString
  | String c rest => String (ascii_lower c) (lowercase rest)
  end.

(** The value of a decimal digit. *)
Definition digit_of_ascii (c : ascii) : option nat :=
  let n := nat_of_ascii c in
  if (48 <=? n)%nat && (n <=? 57)%nat then Some (n - 48)%nat else None.

Fixpoint digits_value (acc : nat) (s : string) : option nat :=
  match s with
  | EmptyString => Some acc
  | String c rest =>
      match digit_of_ascii c with
      | Some d => digits_value (10 * acc + d) rest
      | None => None
      end
  end.

(** A property name is an array index when it is the decimal writing of a
    number, without sign and without a leading zero (the bound of 2^32 - 1
    on the indices of an array is left out: no parsed array is that long). *)
Definition array_index (k : string) : option nat :=
  match k with
  | EmptyString => None
  | String "0" EmptyString => Some 0%nat
  | String "0" _ => None
  | _ => digits_value 0 k
  end.

(** ** Outcomes

    A call returns a value or throws. *)

Inductive exn :=
| TypeError (message : string)
| SyntaxError
| InvalidCharacterError
(** [new Error(`HTTP ${status}`)] *)
| HttpError (status : nat).

Inductive outcome (A : Type) :=
| Returned (a : A)
| Thrown (e : exn).
Arguments Returned {A} a.
Arguments Thrown {A} e.

(** ** The values of a translation table

    [this.translations] is [{}] or what [response.json()] gave: [null], a
    boolean, a number, a string, an array or an object.  From an object or
    an array, [k in value] and [value[k]] also reach what these inherit:
    [Object.prototype], [Array.prototype] and their methods.  The built-in
    prototypes are taken as the language defines them (no script has added
    properties to them). *)

Inductive value :=
| VUndefined
| VNull
| VBoolean (b : bool)
| VNumber (x : float)
| VString (s : string)
| VArray (items : list value)
| VObject (fields : gmap string value)
| VFunction (name : string)
| VObjectPrototype
| VArrayPrototype.

(** [typeof v]. *)
Definition typeof (v : value) : string :=
  match v with
  | VUndefined => "undefined"
  | VNull => "object"
  | VBoolean _ => "boolean"
  | VNumber _ => "number"
  | VString _ => "string"
  | VFunction _ => "function"
  | VArray _ | VObject _ | VObjectPrototype | VArrayPrototype => "object"
  end.

(** Whether [v] counts as true in a condition. *)
Definition truthy (v : value) : bool :=
  match v with
  | VUndefined | VNull => false
  | VBoolean b => b
  | VNumber x => negb (PrimFloat.is_zero x || PrimFloat.is_nan x)
  | VString s => negb (String.eqb s "")
  | _ => true
  end.

(** The function-valued properties of the two built-in prototypes. *)
Definition Object_prototype_methods : list string :=
  ["constructor"; "hasOwnProperty"; "isPrototypeOf"; "propertyIsEnumerable";
   "toLocaleString"; "toString"; "valueOf";
   "__defineGetter__"; "__defineSetter__"; "__lookupGetter__"; "__lookupSetter__"].

Definition Array_prototype_methods : list string :=
  ["constructor"; "at"; "concat"; "copyWithin"; "entries"; "every"; "fill";
   "filter"; "find"; "findIndex"; "findLast"; "findLastIndex"; "flat";
   "flatMap"; "forEach"; "includes"; "indexOf"; "join"; "keys";
   "lastIndexOf"; "map"; "pop"; "push"; "reduce"; "reduceRight"; "reverse";
   "shift"; "slice"; "some"; "sort"; "splice"; "toLocaleString";
   "toReversed"; "toSorted"; "toSpliced"; "toString"; "unshift"; "values";
   "with"].

(** A property is a data property or the accessor [__proto__] of
    [Object.prototype], whose getter answers with the prototype of the
    object the property was read from. *)
Inductive property :=
| DataProperty (v : value)
| ProtoAccessor.

Definition number_of_nat (n : nat) : float :=
  PrimFloat.of_uint63 (Uint63.of_Z (Z.of_nat n)).

Definition own_property (o : value) (k : string) : option property :=
  match o with
  | VObject fields => DataProperty <$> fields !! k
  | VArray items =>
      if String.eqb k "length"
      then Some (DataProperty (VNumber (number_of_nat (length items))))
      else match array_index k with
           | Some i => DataProperty <$> items !! i
           | None => None
           end
  | VArrayPrototype =>
      if String.eqb k "length" then Some (DataProperty (VNumber 0%float))
      else if bool_decide (k ∈ Array_prototype_methods)
           then Some (DataProperty (VFunction k))
           else None
  | VObjectPrototype =>
      if String.eqb k "__proto__" then Some ProtoAccessor
      else if bool_decide (k ∈ Object_prototype_methods)
           then Some (DataProperty (VFunction k))
           else None
  | _ => None
  end.

(** The object itself followed by the objects it inherits from.  Of a
    function only what it inherits from [Object.prototype] is modelled: [t]
    never looks into one. *)
Definition prototype_chain (o : value) : list value :=
  match o with
  | VObject _ => [o; VObjectPrototype]
  | VArray _ => [o; VArrayPrototype; VObjectPrototype]
  | VArrayPrototype => [o; VObjectPrototype]
  | VObjectPrototype => [o]
  | VFunction _ => [o; VObjectPrototype]
  | _ => []
  end.

(** The prototype of [o] as a value ([null] at the end of the chain). *)
Definition prototype_of (o : value) : value :=
  match prototype_chain o with
  | _ :: p :: _ => p
  | _ => VNull
  end.

Fixpoint first_property (chain : list value) (k : string) : option property :=
  match chain with
  | [] => None
  | o :: up =>
      match own_property o k with
      | Some p => Some p
      | None => first_property up k
      end
  end.

Definition is_object (v : value) : bool :=
  match v with
  | VArray _ | VObject _ | VObjectPrototype | VArrayPrototype | VFunction _ => true
  | _ => false
  end.

(** [k in v]: a [TypeError] when [v] is not an object. *)
Definition js_in (k : string) (v : value) : outcome bool :=
  if is_object v
  then Returned (bool_decide (is_Some (first_property (prototype_chain v) k)))
  else Thrown (TypeError "Cannot use 'in' operator to search for a key in a primitive").

(** [v[k]] for an object [v]; [undefined] when no object on the chain has
    the property. *)
Definition js_get (v : value) (k : string) : value :=
  match first_property (prototype_chain v) k with
  | Some (DataProperty x) => x
  | Some ProtoAccessor => prototype_of v
  | None => VUndefined
  end.

(** ** [t(key, fallback = '')] *)

(** [value && typeof value === 'object' && k in value], evaluated from the
    left; each [&&] stops at the first false operand. *)
Definition can_descend (value : value) (k : string) : outcome bool :=
  if truthy value then
    if String.eqb (typeof value) "object" then js_in k value
    else Returned false
  else Returned false.

(** The [for (const k of keys)] loop with the [return] that follows it;
    [typeof value === 'string'] holds of the strings and of nothing else. *)
Fixpoint t_loop (keys : list string) (value : value) (key fallback : string)
  : outcome string :=
  match keys with
  | [] =>
      Returned (match value with
                | VString s => s
                | _ => or_else fallback key
                end)
  | k :: keys' =>
      match can_descend value k with
      | Thrown e => Thrown e
      | Returned true => t_loop keys' (js_get value k) key fallback
      | Returned false => Returned (or_else fallback key)
      end
  end.

Definition t (translations : value) (key fallback : string) : outcome string :=
  t_loop (split "." key) translations key fallback.


(** ** The document

    The host's document, as far as the class uses it: a title, and a tree of
    elements and text.  The elements are HTML elements of an HTML document,
    so attribute names are held in lower case and [element.title] and (on
    [INPUT] and [TEXTAREA]) [element.placeholder] are the attributes of the
    same name.  The title of the document is taken as a property that reads
    back what was written to it. *)

(** The click listeners of the class: there is one closure, registered by
    [setupLanguageSwitcher]. *)
Inductive listener :=
| ToggleLanguage.

Record element := {
  tagName : string;
  attributes : gmap string string;
  (** properties a script has set on the element object itself, for names
      the DOM gives no meaning on this kind of element *)
  expando : gmap string string;
  listeners : list listener;
}.

Inductive node :=
| Text (data : string)
| Elem (e : element) (children : list node).

Record Document := {
  title : string;
  content : list node;
}.

Definition with_attributes (e : element) (a : gmap string string) : element :=
  {| tagName := tagName e; attributes := a;
     expando := expando e; listeners := listeners e |}.

Definition with_expando (e : element) (x : gmap string string) : element :=
  {| tagName := tagName e; attributes := attributes e;
     expando := x; listeners := listeners e |}.

Definition with_listeners (e : element) (l : list listener) : element :=
  {| tagName := tagName e; attributes := attributes e;
     expando := expando e; listeners := l |}.

(** [element.getAttribute(name)]; [None] is [null]. *)
Definition getAttribute (e : element) (name : string) : option string :=
  attributes e !! lowercase name.

Definition is_ascii_whitespace (c : ascii) : bool :=
  let n := nat_of_ascii c in
  (n =? 9)%nat || (n =? 10)%nat || (n =? 12)%nat || (n =? 13)%nat || (n =? 32)%nat.

(** The names [setAttribute] accepts (DOM, valid attribute local name): not
    empty, and free of white space, NUL, ['/'], ['='] and ['>']. *)
Fixpoint attribute_name_chars (s : string) : bool :=
  match s with
  | EmptyString => true
  | String c rest =>
      negb (is_ascii_whitespace c || Ascii.eqb c "000" || Ascii.eqb c "/"
            || Ascii.eqb c "=" || Ascii.eqb c ">")
      && attribute_name_chars rest
  end.

Definition valid_attribute_name (s : string) : bool :=
  negb (String.eqb s "") && attribute_name_chars s.

(** [element.setAttribute(name, v)]. *)
Definition setAttribute (e : element) (name v : string) : outcome element :=
  if valid_attribute_name name
  then Returned (with_attributes e (<[lowercase name := v]> (attributes e)))
  else Thrown InvalidCharacterError.

(** [element.tagName === 'INPUT' || element.tagName === 'TEXTAREA']. *)
Definition is_input_like (e : element) : bool :=
  String.eqb (tagName e) "INPUT" || String.eqb (tagName e) "TEXTAREA".

(** [element.placeholder = v]: the attribute on the two kinds of element
    that have it, a plain property of the object on the others. *)
Definition set_placeholder (e : element) (v : string) : element :=
  if is_input_like e
  then with_attributes e (<["placeholder" := v]> (attributes e))
  else with_expando e (<["placeholder" := v]> (expando e)).

(** Reading [element.placeholder]; [None] is [undefined].  An input without
    the attribute answers the empty string. *)
Definition placeholder (e : element) : option string :=
  if is_input_like e
  then Some (default "" (attributes e !! "placeholder"))
  else expando e !! "placeholder".

(** [element.title = v]. *)
Definition set_title (e : element) (v : string) : element :=
  with_attributes e (<["title" := v]> (attributes e)).

(** The children [element.textContent = s] leaves: one text node, or none
    for the empty string. *)
Definition text_children (s : string) : list node :=
  match s with
  | EmptyString => []
  | _ => [Text s]
  end.

(** Reading [textContent]: the text below the node, in tree order. *)
Fixpoint textContent (n : node) : string :=
  match n with
  | Text data => data
  | Elem _ children =>
      (fix go (l : list node) : string :=
         match l with
         | [] => ""
         | c :: rest => textContent c +:+ go rest
         end) children
  end.

Fixpoint textContent_list (l : list node) : string :=
  match l with
  | [] => ""
  | c :: rest => textContent c +:+ textContent_list rest
  end.

(** Every node of the trees, in tree order. *)
Fixpoint nodes_of (n : node) : list node :=
  n :: match n with
       | Text _ => []
       | Elem _ children => flat_map nodes_of children
       end.

Definition all_nodes (l : list node) : list node := flat_map nodes_of l.

(** *** [querySelectorAll(selector).forEach(callback)]

    The elements that match are visited in tree order.  [callback e] gives
    the element as the callback leaves it and, when the callback assigns
    [textContent], the new text.  An element below one whose text was
    replaced has left the document by the time its turn comes: what the
    callback does to it cannot be seen in the document; the callbacks that
    replace text do not throw.  When a callback throws, the visit stops and
    what was done so far stays. *)

Section ForEach.
Variable selected : element -> bool.
Variable callback : element -> outcome (element * option string).

Fixpoint forEach_node (n : node) : node * option exn :=
  match n with
  | Text _ => (n, None)
  | Elem e children =>
      let visit_children :=
        (fix go (l : list node) : list node * option exn :=
           match l with
           | [] => ([], None)
           | c :: rest =>
               match forEach_node c with
               | (c', Some x) => (c' :: rest, Some x)
               | (c', None) => let '(rest', x) := go rest in (c' :: rest', x)
               end
           end) in
      if selected e then
        match callback e with
        | Thrown x => (n, Some x)
        | Returned (e', Some text) => (Elem e' (text_children text), None)
        | Returned (e', None) =>
            let '(children', x) := visit_children children in
            (Elem e' children', x)
        end
      else
        let '(children', x) := visit_children children in
        (Elem e children', x)
  end.

Fixpoint forEach (l : list node) : list node * option exn :=
  match l with
  | [] => ([], None)
  | c :: rest =>
      match forEach_node c with
      | (c', Some x) => (c' :: rest, Some x)
      | (c', None) => let '(rest', x) := forEach rest in (c' :: rest', x)
      end
  end.
End ForEach.

(** *** Finding one element

    An element is referred to by its path: the positions to follow from
    the top of the document. *)

Section Find.
Variable p : element -> bool.

Definition below (i : nat) (q : list nat) : list nat := i :: q.

Definition next_sibling (q : list nat) : list nat :=
  match q with
  | [] => []
  | i :: q' => S i :: q'
  end.

(** The first element in tree order that satisfies [p], [n] included. *)
Fixpoint find_node (n : node) : option (list nat) :=
  match n with
  | Text _ => None
  | Elem e children =>
      if p e then Some []
      else (fix go (l : list node) : option (list nat) :=
              match l with
              | [] => None
              | c :: rest =>
                  match find_node c with
                  | Some q => Some (below 0 q)
                  | None => next_sibling <$> go rest
                  end
              end) children
  end.

Fixpoint find (l : list node) : option (list nat) :=
  match l with
  | [] => None
  | c :: rest =>
      match find_node c with
      | Some q => Some (below 0 q)
      | None => next_sibling <$> find rest
      end
  end.
End Find.

(** The node at a path. *)
Fixpoint node_at (l : list node) (q : list nat) : option node :=
  match q with
  | [] => None
  | i :: q' =>
      match l !! i with
      | None => None
      | Some n =>
          match q' with
          | [] => Some n
          | _ => match n with
                 | Elem _ children => node_at children q'
                 | Text _ => None
                 end
          end
      end
  end.

(** The tree with [f] applied to the node at a path. *)
Fixpoint alter_at (f : node -> node) (l : list node) (q : list nat) : list node :=
  match q with
  | [] => l
  | i :: q' =>
      alter (fun n =>
               match q' with
               | [] => f n
               | _ => match n with
                      | Elem e children => Elem e (alter_at f children q')
                      | Text _ => n
                      end
               end) i l
  end.

(** [document.getElementById(id)]. *)
Definition has_id (id : string) (e : element) : bool :=
  bool_decide (attributes e !! "id" = Some id).

Definition getElementById (d : Document) (id : string) : option (list nat) :=
  find (has_id id) (content d).

(** The class names of an element: its [class] attribute cut at white space. *)
Fixpoint tokens_from (current : string) (s : string) : list string :=
  match s with
  | EmptyString => match current with EmptyString => [] | _ => [current] end
  | String c rest =>
      if is_ascii_whitespace c
      then match current with
           | EmptyString => tokens_from "" rest
           | _ => current :: tokens_from "" rest
           end
      else tokens_from (current +:+ String c "") rest
  end.

Definition class_list (e : element) : list string :=
  tokens_from "" (default "" (attributes e !! "class")).

Definition has_class (cls : string) (e : element) : bool :=
  bool_decide (cls ∈ class_list e).

(** [scope.querySelector('.cls')]: the first element below [scope] with
    the class. *)
Definition querySelector_class (d : Document) (scope : list nat) (cls : string)
  : option (list nat) :=
  match node_at (content d) scope with
  | Some (Elem _ children) => (fun q => (scope ++ q)%list) <$> find (has_class cls) children
  | _ => None
  end.

(** [element.textContent = s] on the node at a path. *)
Definition assign_text (s : string) (n : node) : node :=
  match n with
  | Elem e _ => Elem e (text_children s)
  | Text _ => Text s
  end.

Definition set_textContent (d : Document) (q : list nat) (s : string) : Document :=
  {| title := title d; content := alter_at (assign_text s) (content d) q |}.

(** [element.addEventListener('click', h)] on the node at a path. *)
Definition add_listener (h : listener) (n : node) : node :=
  match n with
  | Elem e children => Elem (with_listeners e (listeners e ++ [h])%list) children
  | Text _ => n
  end.

Definition addEventListener (d : Document) (q : list nat) (h : listener) : Document :=
  {| title := title d; content := alter_at (add_listener h) (content d) q |}.

(** ** The state of the class and of its host *)

(** What the class asks of the network and of the preference store, in the
    order it asks. *)
Inductive effect :=
| Fetch (url : string)
| SetItem (key value : string).

(** The one callback the class hands to [setTimeout]. *)
Inductive task :=
| RefreshSwitcher.

Record state := {
  (** [this.currentLanguage], [this.translations], [this.isInitialized] *)
  currentLanguage : string;
  translations : value;
  isInitialized : bool;
  (** the preference store *)
  localStorage : gmap string string;
  (** the document *)
  document : Document;
  (** the callbacks waiting for their delay to pass *)
  timers : list task;
  (** the requests made so far, the latest last *)
  effects : list effect;
}.

Definition with_currentLanguage (lang : string) (w : state) : state :=
  {| currentLanguage := lang; translations := translations w;
     isInitialized := isInitialized w; localStorage := localStorage w;
     document := document w; timers := timers w; effects := effects w |}.

Definition with_translations (v : value) (w : state) : state :=
  {| currentLanguage := currentLanguage w; translations := v;
     isInitialized := isInitialized w; localStorage := localStorage w;
     document := document w; timers := timers w; effects := effects w |}.

Definition with_isInitialized (b : bool) (w : state) : state :=
  {| currentLanguage := currentLanguage w; translations := translations w;
     isInitialized := b; localStorage := localStorage w;
     document := document w; timers := timers w; effects := effects w |}.

Definition with_document (d : Document) (w : state) : state :=
  {| currentLanguage := currentLanguage w; translations := translations w;
     isInitialized := isInitialized w; localStorage := localStorage w;
     document := d; timers := timers w; effects := effects w |}.

Definition with_timers (l : list task) (w : state) : state :=
  {| currentLanguage := currentLanguage w; translations := translations w;
     isInitialized := isInitialized w; localStorage := localStorage w;
     document := document w; timers := l; effects := effects w |}.

(** [localStorage.setItem(key, v)]. *)
Definition setItem (key v : string) (w : state) : state :=
  {| currentLanguage := currentLanguage w; translations := translations w;
     isInitialized := isInitialized w;
     localStorage := <[key := v]> (localStorage w);
     document := document w; timers := timers w;
     effects := (effects w ++ [SetItem key v])%list |}.

Definition record_fetch (url : string) (w : state) : state :=
  {| currentLanguage := currentLanguage w; translations := translations w;
     isInitialized := isInitialized w; localStorage := localStorage w;
     document := document w; timers := timers w;
     effects := (effects w ++ [Fetch url])%list |}.

(** What a request comes to: no response at all, or a response with a
    status and a body; [json] is the value the body parses to, [None] when
    it is not JSON. *)
Inductive fetch_result :=
| NetworkError
| Response (status : nat) (json : option value).

Definition network := string -> fetch_result.

(** The two files of the class.  They differ in [loadTranslations] (the
    test of [response.ok]), in [updateLanguageSwitcher] (the test of the
    label), in [init] (the flag) and in what they write to the console. *)
Inductive file :=
| public_js_i18n_js
| unnamed_part_000.

Definition checks_status (f : file) : bool :=
  match f with public_js_i18n_js => true | unnamed_part_000 => false end.

Definition checks_label (f : file) : bool :=
  match f with public_js_i18n_js => true | unnamed_part_000 => false end.

Definition logs_keys (f : file) : bool :=
  match f with public_js_i18n_js => true | unnamed_part_000 => false end.

Definition sets_flag (f : file) : bool :=
  match f with public_js_i18n_js => true | unnamed_part_000 => false end.

(** ** Computations

    A method runs on a state and returns or throws, leaving a state.  An
    [async] method is run from its call to its completion: a rejected
    promise is a throw.  (Calls that overlap in time are outside this
    model.) *)

#[global] Instance outcome_ret : MRet outcome := fun A a => Returned a.
#[global] Instance outcome_bind : MBind outcome := fun A B f m =>
  match m with
  | Returned a => f a
  | Thrown e => Thrown e
  end.

Definition M (A : Type) : Type := state -> outcome A * state.

#[global] Instance M_ret : MRet M := fun A a w => (Returned a, w).
#[global] Instance M_bind : MBind M := fun A B f m w =>
  match m w with
  | (Returned a, w') => f a w'
  | (Thrown e, w') => (Thrown e, w')
  end.

Definition throw {A : Type} (e : exn) : M A := fun w => (Thrown e, w).
Definition gets {A : Type} (f : state -> A) : M A := fun w => (Returned (f w), w).
Definition modify (f : state -> state) : M unit := fun w => (Returned tt, f w).
Definition lift {A : Type} (o : outcome A) : M A := fun w => (o, w).

(** [try { body } catch (error) { handler }]. *)
Definition try_catch {A : Type} (body : M A) (handler : exn -> M A) : M A :=
  fun w =>
    match body w with
    | (Returned a, w') => (Returned a, w')
    | (Thrown e, w') => handler e w'
    end.

(** ** The methods *)

(** [await fetch(url)]. *)
Definition fetch (net : network) (url : string) : M (nat * option value) :=
  modify (record_fetch url);;
  match net url with
  | NetworkError => throw (TypeError "Failed to fetch")
  | Response status json => mret (status, json)
  end.

(** [response.ok]. *)
Definition ok (response : nat * option value) : bool :=
  (200 <=? fst response)%nat && (fst response <=? 299)%nat.

(** [await response.json()]. *)
Definition json_of (response : nat * option value) : M value :=
  match snd response with
  | Some v => mret v
  | None => throw SyntaxError
  end.

Definition locale_url (lang : string) : string :=
  "/js/locales/" +:+ lang +:+ ".json".

Definition loadTranslations (f : file) (net : network) : M unit :=
  try_catch
    (lang ← gets currentLanguage;
     response ← fetch net (locale_url lang);
     (if checks_status f && negb (ok response)
      then throw (HttpError (fst response))
      else mret tt);;
     v ← json_of response;
     modify (with_translations v))
    (fun error =>
       lang ← gets currentLanguage;
       if String.eqb lang "en" then
         modify (with_currentLanguage "zh");;
         response ← fetch net "/js/locales/zh.json";
         v ← json_of response;
         modify (with_translations v)
       else mret tt).

(** [Object.keys(v)], for whether it throws. *)
Definition Object_keys (v : value) : outcome unit :=
  match v with
  | VUndefined | VNull => Thrown (TypeError "Cannot convert undefined or null to object")
  | _ => Returned tt
  end.

Definition has_attribute (name : string) (e : element) : bool :=
  bool_decide (is_Some (attributes e !! name)).

(** [this.t(key)] where [key] comes from [getAttribute] or from a cut
    string: [null] and [undefined] have no [split]. *)
Definition t_of (translations : value) (key : option string) : outcome string :=
  match key with
  | Some k => t translations k ""
  | None => Thrown (TypeError "Cannot read properties of undefined (reading 'split')")
  end.

(** The four callbacks of [applyLanguage]. *)
Definition translate_text (translations : value) (e : element)
  : outcome (element * option string) :=
  text ← t_of translations (getAttribute e "data-i18n");
  if is_input_like e
  then mret (set_placeholder e text, None)
  else mret (e, Some text).

Definition translate_attr (translations : value) (e : element)
  : outcome (element * option string) :=
  match getAttribute e "data-i18n-attr" with
  | None => Thrown (TypeError "Cannot read properties of null (reading 'split')")
  | Some attrData =>
      let parts := split ":" attrData in
      text ← t_of translations (parts !! 1%nat);
      e' ← setAttribute e (default "" (parts !! 0%nat)) text;
      mret (e', None)
  end.

Definition translate_title (translations : value) (e : element)
  : outcome (element * option string) :=
  text ← t_of translations (getAttribute e "data-i18n-title");
  mret (set_title e text, None).

Definition translate_placeholder (translations : value) (e : element)
  : outcome (element * option string) :=
  text ← t_of translations (getAttribute e "data-i18n-placeholder");
  mret (set_placeholder e text, None).

(** [document.querySelectorAll('[name]').forEach(callback)]. *)
Definition forEach_with (name : string)
    (callback : element -> outcome (element * option string)) : M unit :=
  fun w =>
    let '(nodes, x) := forEach (has_attribute name) callback (content (document w)) in
    (match x with None => Returned tt | Some e => Thrown e end,
     with_document {| title := title (document w); content := nodes |} w).

Definition set_document_title (s : string) (w : state) : state :=
  with_document {| title := s; content := content (document w) |} w.

Definition applyLanguage (f : file) : M unit :=
  translations ← gets translations;
  (if logs_keys f then lift (Object_keys translations) else mret tt);;
  s ← lift (t translations "page.title" "");
  modify (set_document_title s);;
  forEach_with "data-i18n" (translate_text translations);;
  forEach_with "data-i18n-attr" (translate_attr translations);;
  forEach_with "data-i18n-title" (translate_title translations);;
  forEach_with "data-i18n-placeholder" (translate_placeholder translations).

Definition setupLanguageSwitcher : M unit :=
  d ← gets document;
  match getElementById d "language-switcher" with
  | Some switcher => modify (with_document (addEventListener d switcher ToggleLanguage))
  | None => mret tt
  end.

Definition updateLanguageSwitcher (f : file) : M unit :=
  d ← gets document;
  match getElementById d "language-switcher" with
  | Some switcher =>
      match querySelector_class d switcher "btn-text" with
      | Some text =>
          lang ← gets currentLanguage;
          if String.eqb lang "zh"
          then modify (with_document (set_textContent d text "English"))
          else modify (with_document (set_textContent d text "中文"))
      | None =>
          if checks_label f then mret tt
          else throw (TypeError "Cannot set properties of null (setting 'textContent')")
      end
  | None => mret tt
  end.

Definition switchLanguage (f : file) (net : network) (lang : string) : M unit :=
  current ← gets currentLanguage;
  if String.eqb lang current then mret tt
  else
    modify (with_currentLanguage lang);;
    modify (setItem "language" lang);;
    loadTranslations f net;;
    applyLanguage f;;
    updateLanguageSwitcher f.

(** The language the click listener asks for. *)
Definition newLang (w : state) : string :=
  if String.eqb (currentLanguage w) "zh" then "en" else "zh".

(** The click listener. *)
Definition on_click (f : file) (net : network) : M unit :=
  fun w => switchLanguage f net (newLang w) w.

Definition setTimeout (k : task) : M unit :=
  modify (fun w => with_timers (timers w ++ [k])%list w).

Definition init (f : file) (net : network) : M unit :=
  loadTranslations f net;;
  applyLanguage f;;
  setupLanguageSwitcher;;
  (if sets_flag f then modify (with_isInitialized true) else mret tt);;
  setTimeout RefreshSwitcher.

(** The fields the constructor sets, before it calls [init]. *)
Definition constructed (storage : gmap string string) (d : Document) : state :=
  {| currentLanguage :=
       match storage !! "language" with
       | Some lang => or_else lang "zh"
       | None => "zh"
       end;
     translations := VObject ∅;
     isInitialized := false;
     localStorage := storage;
     document := d;
     timers := [];
     effects := [] |}.

(** ** The host's turns

    What the host runs on behalf of the class: the construction at page
    load, the callbacks whose delay has passed, a click on the toggle.  A
    throw inside one of them ends it and is reported on the console; the
    state stays as the throw left it. *)

Definition new_I18n (f : file) (net : network)
    (storage : gmap string string) (d : Document) : state :=
  snd (init f net (constructed storage d)).

Definition run_task (f : file) (k : task) (w : state) : state :=
  match k with
  | RefreshSwitcher => snd (updateLanguageSwitcher f w)
  end.

Definition run_timers (f : file) (w : state) : state :=
  foldl (fun w k => run_task f k w) (with_timers [] w) (timers w).

Definition run_listener (f : file) (net : network) (h : listener) (w : state) : state :=
  match h with
  | ToggleLanguage => snd (on_click f net w)
  end.

(** A click on the element [getElementById('language-switcher')] finds. *)
Definition click_toggle (f : file) (net : network) (w : state) : state :=
  match getElementById (document w) "language-switcher" with
  | Some q =>
      match node_at (content (document w)) q with
      | Some (Elem e _) => foldl (fun w h => run_listener f net h w) w (listeners e)
      | _ => w
      end
  | None => w
  end.

(** The text of the toggle's label, when the toggle and the label exist. *)
Definition toggle_label (d : Document) : option (list nat) :=
  match getElementById d "language-switcher" with
  | Some switcher => querySelector_class d switcher "btn-text"
  | None => None
  end.

Definition toggle_label_text (d : Document) : option string :=
  match toggle_label d with
  | Some q => textContent <$> node_at (content d) q
  | None => None
  end.

(** ** The lookup of the specification

    The definitions below are written from the specification, to be
    compared with the methods above. *)

(** The translation mappings of the specification: mappings nested in
    mappings with strings at the leaves.  The other scalars of JSON are let
    through as leaves too (the specification speaks of leaves that are not
    strings); what a translation mapping never holds is an array. *)
Fixpoint nested_mapping (v : value) : bool :=
  match v with
  | VNull | VBoolean _ | VNumber _ | VString _ => true
  | VObject fields => map_fold (fun _ x rest => nested_mapping x && rest) true fields
  | _ => false
  end.

(** The descent of the specification: one segment per level; it fails when
    the level is not a mapping or has no such key. *)
Fixpoint descend_mapping (segments : list string) (v : value) : option value :=
  match segments with
  | [] => Some v
  | k :: rest =>
      match v with
      | VObject fields =>
          match fields !! k with
          | Some x => descend_mapping rest x
          | None => None
          end
      | _ => None
      end
  end.

Definition t_reference (translations : value) (key fallback : string) : string :=
  match descend_mapping (split "." key) translations with
  | Some (VString s) => s
  | _ => or_else fallback key
  end.

(** The same descent with an array taken as a level too: the mapping from
    the index of each item, written in decimal, to the item. *)
Definition entry (v : value) (k : string) : option value :=
  match v with
  | VObject fields => fields !! k
  | VArray items =>
      match array_index k with
      | Some i => items !! i
      | None => None
      end
  | _ => None
  end.

Fixpoint descend (segments : list string) (v : value) : option value :=
  match segments with
  | [] => Some v
  | k :: rest =>
      match entry v k with
      | Some x => descend rest x
      | None => None
      end
  end.

Definition t_descent (translations : value) (key fallback : string) : string :=
  match descend (split "." key) translations with
  | Some (VString s) => s
  | _ => or_else fallback key
  end.

(** The values below which [t] finds no string: the scalars that are not
    strings, and what the built-in prototypes hold. *)
Definition barren (v : value) : bool :=
  match v with
  | VString _ | VArray _ | VObject _ => false
  | _ => true
  end.

(** ** Words of the specification about loading *)

(** The retrieval fails, as the file sees it: no response, a body that is
    not JSON, or (where the status is tested) a status outside 200..299. *)
Definition fails (f : file) (r : fetch_result) : bool :=
  match r with
  | NetworkError => true
  | Response status json =>
      (checks_status f && negb (ok (status, json)))
      || bool_decide (json = None)
  end.

(** The resource loads: a response with a status of success whose body
    parses to [v]. *)
Definition loads (r : fetch_result) (v : value) : Prop :=
  exists status, r = Response status (Some v) /\ ok (status, Some v) = true.

(** ** Sample data

    A table, pages and networks on which the theorems below are run. *)

Definition an_element (tag : string) (attrs : list (string * string)) : element :=
  {| tagName := tag; attributes := list_to_map attrs;
     expando := ∅; listeners := [] |}.

(** [{"page": {"title": "Hello"}}] and its Chinese counterpart. *)
Definition en_table : value :=
  VObject {[ "page" := VObject {[ "title" := VString "Hello" ]} ]}.

Definition zh_table : value :=
  VObject {[ "page" := VObject {[ "title" := VString "你好" ]} ]}.

(** [{"a": ["x"]}]: a table with an array in it. *)
Definition table_with_array : value :=
  VObject {[ "a" := VArray [VString "x"] ]}.

(** [{"error": "Not Found"}]: the body of an error page that is JSON. *)
Definition error_body : value :=
  VObject {[ "error" := VString "Not Found" ]}.

(** A page with a heading bound to [page.title] and the toggle:
    [<h1 data-i18n="page.title">…</h1>
     <button id="language-switcher"><span class="btn-text">…</span></button>]. *)
Definition page_with_toggle : Document :=
  {| title := "";
     content :=
       [Elem (an_element "H1" [("data-i18n", "page.title")]) [Text "…"];
        Elem (an_element "BUTTON" [("id", "language-switcher")])
          [Elem (an_element "SPAN" [("class", "btn-text")]) [Text "…"]]] |}.

(** The same toggle without its label: [<button id="language-switcher">]. *)
Definition page_without_label : Document :=
  {| title := "";
     content := [Elem (an_element "BUTTON" [("id", "language-switcher")]) []] |}.


(** [<span data-i18n="page.title"></span>
     <a data-i18n-attr="aria-label:page.title"></a>]. *)
Definition page_with_bindings : Document :=
  {| title := "";
     content :=
       [Elem (an_element "SPAN" [("data-i18n", "page.title")]) [];
        Elem (an_element "A" [("data-i18n-attr", "aria-label:page.title")]) []] |}.

(** Both resources load. *)
Definition net_both : network := fun url =>
  if String.eqb url "/js/locales/zh.json" then Response 200 (Some zh_table)
  else if String.eqb url "/js/locales/en.json" then Response 200 (Some en_table)
  else Response 404 None.

(** The English resource is missing (an HTML error page); the Chinese one
    loads. *)
Definition net_without_en : network := fun url =>
  if String.eqb url "/js/locales/zh.json" then Response 200 (Some zh_table)
  else Response 404 None.

(** Nothing answers. *)
Definition net_down : network := fun _ => NetworkError.

(** No resource is there, and the server's error page is JSON. *)
Definition net_json_errors : network := fun _ => Response 404 (Some error_body).

(** ** Words of the specification about the toggle *)

(** The display name of the language the toggle would switch to. *)
Definition label_for (lang : string) : string :=
  if String.eqb lang "zh" then "English" else "中文".

(** No element of the trees carries a listener yet. *)
Definition listener_free (l : list node) : bool :=
  forallb (fun n => match n with
                    | Elem e _ => bool_decide (listeners e = [])
                    | Text _ => true
                    end) (all_nodes l).

(** ** Words of the specification about the bindings *)

(** The four marker attributes. *)
Definition binding_markers : list string :=
  ["data-i18n"; "data-i18n-attr"; "data-i18n-title"; "data-i18n-placeholder"].

(** The attribute an attribute binding names and the key it gives: the
    first two pieces of the marker cut at the colons. *)
Definition attr_binding (e : element) : option (string * string) :=
  match attributes e !! "data-i18n-attr" with
  | Some marker =>
      match split ":" marker with
      | attr :: key :: _ => Some (attr, key)
      | _ => None
      end
  | None => None
  end.

(** An attribute binding is well formed when the marker has its two
    pieces, the first is a name [setAttribute] accepts, and the attribute
    named is not itself one of the markers. *)
Definition attr_binding_ok (e : element) : bool :=
  match attributes e !! "data-i18n-attr" with
  | None => true
  | Some _ =>
      match attr_binding e with
      | Some (attr, _) =>
          valid_attribute_name attr
          && negb (bool_decide (lowercase attr ∈ binding_markers))
      | None => false
      end
  end.

Definition attr_bindings_ok (l : list node) : bool :=
  forallb (fun n => match n with
                    | Elem e _ => attr_binding_ok e
                    | Text _ => true
                    end) (all_nodes l).



(** [null] and [undefined]. *)
Definition nullish (v : value) : bool :=
  match v with
  | VUndefined | VNull => true
  | _ => false
  end.

(** What the four callbacks make of an element, one after the other. *)
Definition after_text (tr : value) (e : element) : element :=
  match attributes e !! "data-i18n" with
  | Some key => if is_input_like e then set_placeholder e (t_descent tr key "") else e
  | None => e
  end.

Definition after_attr (tr : value) (e : element) : element :=
  match attr_binding e with
  | Some (attr, key) =>
      with_attributes e (<[lowercase attr := t_descent tr key ""]> (attributes e))
  | None => e
  end.

Definition after_title (tr : value) (e : element) : element :=
  match attributes e !! "data-i18n-title" with
  | Some key => set_title e (t_descent tr key "")
  | None => e
  end.

Definition after_placeholder (tr : value) (e : element) : element :=
  match attributes e !! "data-i18n-placeholder" with
  | Some key => set_placeholder e (t_descent tr key "")
  | None => e
  end.

Definition after_all (tr : value) (e : element) : element :=
  after_placeholder tr (after_title tr (after_attr tr (after_text tr e))).

(** The trees after each of the four visits of [applyLanguage]. *)
Definition text_pass (tr : value) (l : list node) : list node :=
  fst (forEach (has_attribute "data-i18n") (translate_text tr) l).

Definition attr_pass (tr : value) (l : list node) : list node :=
  fst (forEach (has_attribute "data-i18n-attr") (translate_attr tr) l).

Definition title_pass (tr : value) (l : list node) : list node :=
  fst (forEach (has_attribute "data-i18n-title") (translate_title tr) l).

Definition placeholder_pass (tr : value) (l : list node) : list node :=
  fst (forEach (has_attribute "data-i18n-placeholder") (translate_placeholder tr) l).

Definition four_passes (tr : value) (l : list node) : list node :=
  placeholder_pass tr (title_pass tr (attr_pass tr (text_pass tr l))).

(** ** Notions used in the proofs *)

(** A computation that touches nothing but the document. *)
Definition document_only {A : Type} (m : M A) : Prop :=
  forall w, exists d, snd (m w) = with_document d w.

(** The node at a path that starts at [n]; the empty path is [n]. *)
Definition node_below (n : node) (q : list nat) : option node :=
  match q with
  | [] => Some n
  | _ => match n with
         | Elem _ children => node_at children q
         | Text _ => None
         end
  end.

(** The node [alter_at] puts in the place of [n], [q] being the rest of
    the path below [n]. *)
Definition alter_below (g : node -> node) (q : list nat) (n : node) : node :=
  match q with
  | [] => g n
  | _ => match n with
         | Elem e children => Elem e (alter_at g children q)
         | Text _ => n
         end
  end.

(** What a visit that ran to its end has made of the element [e] with
    the children [children]. *)
Definition visited (selected : element -> bool)
    (callback : element -> outcome (element * option string))
    (e : element) (children : list node) (e' : element) (children' : list node)
  : Prop :=
  if selected e then
    match callback e with
    | Returned (e1, Some text) => e' = e1 /\ children' = text_children text
    | Returned (e1, None) =>
        e' = e1 /\ children' = fst (forEach selected callback children)
    | Thrown _ => False
    end
  else e' = e /\ children' = fst (forEach selected callback children).

(** ** Words used in the further properties *)

(** The retry of the [catch] block fails: no response, or a body that is
    not JSON.  The retry does not look at the status. *)
Definition retry_fails (r : fetch_result) : bool :=
  match r with
  | NetworkError => true
  | Response _ None => true
  | Response _ (Some _) => false
  end.

(** The callback of the attribute bindings returns on [e]: [e] has no
    such marker, or the marker has its two pieces and the first is a name
    [setAttribute] accepts. *)
Definition attr_binding_usable (e : element) : bool :=
  match attributes e !! "data-i18n-attr" with
  | None => true
  | Some _ =>
      match attr_binding e with
      | Some (attr, _) => valid_attribute_name attr
      | None => false
      end
  end.

Definition attr_bindings_usable (l : list node) : bool :=
  forallb (fun n => match n with
                    | Elem e _ => attr_binding_usable e
                    | Text _ => true
                    end) (all_nodes l).

(** A computation that keeps a property of the document, whether it
    returns or throws. *)
Definition keeps {A : Type} (Q : Document -> Prop) (m : M A) : Prop :=
  forall w, Q (document w) -> Q (document (snd (m w))).


(** What the four visits of [applyLanguage] make of a tree when each runs
    to its end, written as one pass: the element is what the four
    callbacks make of it, and its children are the text of the key where
    it has a plain text binding and is not an input. *)
Fixpoint rebind (tr : value) (n : node) : node :=
  match n with
  | Text _ => n
  | Elem e children =>
      Elem (after_all tr e)
        (match attributes e !! "data-i18n" with
         | Some key =>
             if is_input_like e then map (rebind tr) children
             else text_children (t_descent tr key "")
         | None => map (rebind tr) children
         end)
  end.

(** The one entry a callback writes to a map of the element, if any. *)
Definition write (o : option (string * string)) (m : gmap string string)
  : gmap string string :=
  match o with
  | Some (k, v) => <[k := v]> m
  | None => m
  end.

(** What each callback writes to the attributes of [e], and what the
    callback of the placeholder bindings writes to the object itself. *)
Definition text_write (tr : value) (e : element) : option (string * string) :=
  match attributes e !! "data-i18n" with
  | Some key => if is_input_like e then Some ("placeholder", t_descent tr key "") else None
  | None => None
  end.

Definition attr_write (tr : value) (e : element) : option (string * string) :=
  match attr_binding e with
  | Some (attr, key) => Some (lowercase attr, t_descent tr key "")
  | None => None
  end.

Definition title_write (tr : value) (e : element) : option (string * string) :=
  match attributes e !! "data-i18n-title" with
  | Some key => Some ("title", t_descent tr key "")
  | None => None
  end.

Definition placeholder_write (tr : value) (e : element) : option (string * string) :=
  match attributes e !! "data-i18n-placeholder" with
  | Some key => if is_input_like e then Some ("placeholder", t_descent tr key "") else None
  | None => None
  end.

Definition expando_write (tr : value) (e : element) : option (string * string) :=
  match attributes e !! "data-i18n-placeholder" with
  | Some key => if is_input_like e then None else Some ("placeholder", t_descent tr key "")
  | None => None
  end.
(** * Properties *)

(** Unfolds the plumbing of a computation. *)
Ltac run :=
  unfold mbind, M_bind, mret, M_ret, gets, modify, lift, throw, try_catch;
  cbn beta iota.

(** ** [t] *)

Lemma split_not_nil sep s : split sep s <> [].
Proof.
  destruct s as [|c s]; simpl; [discriminate|].
  destruct (Ascii.eqb c sep); [discriminate|].
  destruct (split sep s); discriminate.
Qed.

Lemma own_property_Object_prototype k p :
  own_property VObjectPrototype k = Some p ->
  p = ProtoAccessor \/ exists name, p = DataProperty (VFunction name).
Proof.
  simpl. destruct (String.eqb k "__proto__"); [intros [= <-]; by left|].
  case_bool_decide; [intros [= <-]; right; eauto | discriminate].
Qed.

Lemma own_property_Array_prototype k p :
  own_property VArrayPrototype k = Some p ->
  exists x, p = DataProperty x /\ barren x = true.
Proof.
  simpl. destruct (String.eqb k "length"); [intros [= <-]; eauto|].
  case_bool_decide; [intros [= <-]; eauto | discriminate].
Qed.

Ltac own_property_cases :=
  repeat match goal with
    | |- context [own_property VObjectPrototype ?k] =>
        let Ho := fresh "Ho" in
        destruct (own_property VObjectPrototype k) as [?|] eqn:Ho;
        [apply own_property_Object_prototype in Ho as [-> | [? ->]]|]
    | |- context [own_property VArrayPrototype ?k] =>
        let Ha := fresh "Ha" in
        destruct (own_property VArrayPrototype k) as [?|] eqn:Ha;
        [apply own_property_Array_prototype in Ha as (? & -> & ?)|]
    end.

(** What an object or an array inherits is barren. *)
Lemma inherited_barren v k :
  is_object v = true ->
  own_property v k = None ->
  barren (js_get v k) = true.
Proof.
  intros Hobj Hown. unfold js_get.
  destruct v; try discriminate; cbn [prototype_chain first_property];
    rewrite ?Hown; own_property_cases; done.
Qed.

Lemma barren_get v k : barren v = true -> barren (js_get v k) = true.
Proof.
  intros Hv. unfold js_get.
  destruct v; try discriminate; cbn [prototype_chain first_property];
    try done;
    try change (own_property (VFunction name) k) with (@None property);
    own_property_cases; done.
Qed.

Lemma t_loop_barren keys v key fallback :
  barren v = true ->
  t_loop keys v key fallback = Returned (or_else fallback key).
Proof.
  revert v. induction keys as [|k keys IH]; intros v Hv.
  - destruct v; try discriminate; reflexivity.
  - cbn [t_loop]. unfold can_descend, js_in.
    destruct (truthy v) eqn:Htrue; [|done].
    destruct (String.eqb (typeof v) "object") eqn:Htype; [|done].
    destruct (is_object v) eqn:Hobj; [|destruct v; discriminate].
    case_bool_decide; [|done].
    apply IH. by apply barren_get.
Qed.

Lemma array_index_length : array_index "length" = None.
Proof. reflexivity. Qed.

(** The entries of a level are its own data properties; an own property
    that is not an entry (the [length] of an array) is barren. *)
Lemma own_property_entry v k :
  barren v = false ->
  match entry v k with
  | Some x => own_property v k = Some (DataProperty x)
  | None =>
      own_property v k = None \/
      exists x, own_property v k = Some (DataProperty x) /\ barren x = true
  end.
Proof.
  intros Hv. destruct v; try discriminate; cbn [entry own_property];
    try (by left).
  - (* an array *)
    destruct (String.eqb k "length") eqn:Hk.
    + apply String.eqb_eq in Hk as ->. rewrite array_index_length.
      right. eauto.
    + destruct (array_index k) as [i|]; [|by left].
      destruct (items !! i); [done | by left].
  - (* an object *)
    destruct (fields !! k); [done | by left].
Qed.

(** One turn of the loop at an array or an object. *)
Lemma t_loop_level v k keys key fallback :
  barren v = false ->
  is_object v = true ->
  t_loop (k :: keys) v key fallback =
  match entry v k with
  | Some x => t_loop keys x key fallback
  | None => Returned (or_else fallback key)
  end.
Proof.
  intros Hb Hobj.
  assert (can_descend v k =
          Returned (bool_decide (is_Some (first_property (prototype_chain v) k))))
    as Hcan.
  { unfold can_descend, js_in. rewrite Hobj.
    destruct v; try discriminate; reflexivity. }
  cbn [t_loop]. rewrite Hcan.
  pose proof (own_property_entry v k Hb) as Hown.
  destruct (entry v k) as [x|].
  - assert (first_property (prototype_chain v) k = Some (DataProperty x)) as Hfirst.
    { destruct v; try discriminate; cbn [prototype_chain first_property];
        by rewrite Hown. }
    unfold js_get. rewrite Hfirst. by rewrite bool_decide_true.
  - case_bool_decide; [|done].
    apply t_loop_barren.
    destruct Hown as [Hown | (x & Hown & Hx)].
    + by apply inherited_barren.
    + unfold js_get.
      destruct v; try discriminate; cbn [prototype_chain first_property];
        by rewrite Hown.
Qed.

(** [t] as a descent, for any table. *)
Lemma t_loop_descend keys v key fallback :
  t_loop keys v key fallback =
  Returned (match descend keys v with
            | Some (VString s) => s
            | _ => or_else fallback key
            end).
Proof.
  revert v. induction keys as [|k keys IH]; intros v.
  - destruct v; reflexivity.
  - destruct (barren v) eqn:Hb.
    { rewrite t_loop_barren by done.
      destruct v; try discriminate; reflexivity. }
    destruct (is_object v) eqn:Hobj.
    + rewrite t_loop_level by done. cbn [descend].
      destruct (entry v k); [apply IH | done].
    + destruct v; try discriminate.
      cbn [t_loop descend entry]. unfold can_descend. cbn [truthy typeof].
      by destruct (negb _).
Qed.

Lemma t_is_descent translations key fallback :
  t translations key fallback = Returned (t_descent translations key fallback).
Proof. apply t_loop_descend. Qed.





(** The examples of the specification. *)
Example t_on_sample_table :
  t en_table "page.title" "" = Returned "Hello" /\
  t en_table "page.missing" "N/A" = Returned "N/A" /\
  t en_table "page.missing" "" = Returned "page.missing" /\
  t en_table "page" "" = Returned "page".
Proof. repeat split. Qed.

(** Outside the translation mappings: a table with an array in it.  [t]
    takes the array for a level and the positions of its items for keys. *)
Example t_on_table_with_array :
  nested_mapping table_with_array = false /\
  t table_with_array "a.0" "" = Returned "x" /\
  t_reference table_with_array "a.0" "" = "a.0".
Proof. repeat split. Qed.

(** ** Trees *)

Lemma node_nested_ind (P : node -> Prop) :
  (forall data, P (Text data)) ->
  (forall e children, Forall P children -> P (Elem e children)) ->
  forall n, P n.
Proof.
  intros Htext Helem. fix IH 1. intros [data|e children]; [apply Htext|].
  apply Helem. induction children as [|c rest IHrest]; constructor;
    [apply IH | exact IHrest].
Qed.

Lemma find_node_Elem p e children :
  find_node p (Elem e children) = if p e then Some [] else find p children.
Proof. reflexivity. Qed.

Lemma forEach_node_Elem selected callback e children :
  forEach_node selected callback (Elem e children) =
  if selected e then
    match callback e with
    | Thrown x => (Elem e children, Some x)
    | Returned (e', Some text) => (Elem e' (text_children text), None)
    | Returned (e', None) =>
        let '(children', x) := forEach selected callback children in
        (Elem e' children', x)
    end
  else
    let '(children', x) := forEach selected callback children in
    (Elem e children', x).
Proof. reflexivity. Qed.

Lemma textContent_Elem e children :
  textContent (Elem e children) = textContent_list children.
Proof. reflexivity. Qed.

Lemma append_empty_r s : s +:+ "" = s.
Proof.
  induction s as [|c s IH]; [done|].
  change (String c s +:+ "") with (String c (s +:+ "")). by rewrite IH.
Qed.

Lemma textContent_text_children e s :
  textContent (Elem e (text_children s)) = s.
Proof.
  rewrite textContent_Elem. destruct s; [done|].
  cbn [text_children textContent_list textContent]. apply append_empty_r.
Qed.

Lemma alter_at_cons g l i q :
  alter_at g l (i :: q) = alter (alter_below g q) i l.
Proof. reflexivity. Qed.

Lemma node_at_cons l i q :
  node_at l (i :: q) =
  n ← l !! i;
  match q with
  | [] => Some n
  | _ => match n with
         | Elem _ children => node_at children q
         | Text _ => None
         end
  end.
Proof. cbn. by destruct (l !! i). Qed.

Lemma find_not_nil p l : find p l <> Some [].
Proof.
  induction l as [|c rest IH]; [done|]. cbn [find].
  destruct (find_node p c); [done|].
  destruct (find p rest) as [[|i q]|]; done.
Qed.

Lemma node_at_below l i q : node_at l (i :: q) = l !! i ≫= fun n => node_below n q.
Proof. cbn. by destruct (l !! i). Qed.

Lemma find_cons p c rest :
  find p (c :: rest) =
  match find_node p c with
  | Some q => Some (0%nat :: q)
  | None => next_sibling <$> find p rest
  end.
Proof. reflexivity. Qed.

(** What [find] finds is an element that satisfies the test. *)
Lemma find_in_list p l (Q : node -> list nat -> Prop) :
  Forall (fun n => forall q, find_node p n = Some q -> Q n q) l ->
  forall q, find p l = Some q ->
  exists i q' n, q = i :: q' /\ l !! i = Some n /\ find_node p n = Some q' /\ Q n q'.
Proof.
  induction 1 as [|c rest Hc _ IHrest]; [done|].
  intros q. rewrite find_cons.
  destruct (find_node p c) as [q'|] eqn:Hfc.
  - intros [= <-]. exists 0%nat, q', c. eauto.
  - destruct (find p rest) as [q0|] eqn:Hfr; [|done].
    destruct (IHrest q0 eq_refl) as (i & q' & n & -> & Hi & Hn & HQ).
    intros [= <-]. exists (S i), q', n. eauto.
Qed.

Lemma find_node_below p n q :
  find_node p n = Some q ->
  exists e children, node_below n q = Some (Elem e children) /\ p e = true.
Proof.
  revert q. induction n as [data|e children IH] using node_nested_ind; [done|].
  intros q. rewrite find_node_Elem. destruct (p e) eqn:Hp.
  { intros [= <-]. by exists e, children. }
  intros Hq.
  destruct (find_in_list _ _ _ IH q Hq) as (i & q' & n & -> & Hi & Hn & HQ).
  cbn [node_below]. rewrite node_at_below, Hi. exact HQ.
Qed.

Lemma find_node_at p l q :
  find p l = Some q ->
  exists e children, node_at l q = Some (Elem e children) /\ p e = true.
Proof.
  intros Hq.
  destruct (find_in_list p l (fun n q => exists e children,
              node_below n q = Some (Elem e children) /\ p e = true))
    with (q := q) as (i & q' & n & -> & Hi & Hn & HQ); [|done|].
  { apply Forall_forall. intros n _ q'. apply find_node_below. }
  rewrite node_at_below, Hi. exact HQ.
Qed.

(** [find] finds the same element after the element, or something below
    it, was changed in a way that leaves the test true. *)
Section Stable.
Variable p : element -> bool.
Variable g : node -> node.
Hypothesis g_keeps : forall e children,
  p e = true -> exists e' children', g (Elem e children) = Elem e' children' /\ p e' = true.

Lemma find_alter_list l :
  Forall (fun n => forall q, find_node p n = Some q ->
                     find_node p (alter_below g q n) = Some q) l ->
  forall q, find p l = Some q -> find p (alter_at g l q) = Some q.
Proof using Type.
  induction 1 as [|c rest Hc _ IHrest]; [done|].
  intros q. rewrite find_cons.
  destruct (find_node p c) as [q'|] eqn:Hfc.
  - intros [= <-]. rewrite alter_at_cons. cbn [alter list_alter].
    rewrite find_cons. by rewrite Hc.
  - destruct (find p rest) as [[|i q']|] eqn:Hfr; [by apply find_not_nil in Hfr| |done].
    intros [= <-]. rewrite alter_at_cons. cbn [alter list_alter].
    rewrite find_cons, Hfc. rewrite <- alter_at_cons. by rewrite IHrest.
Qed.

Lemma find_alter_below n q :
  find_node p n = Some q -> find_node p (alter_below g q n) = Some q.
Proof using g_keeps.
  revert q. induction n as [data|e children IH] using node_nested_ind; [done|].
  intros q. rewrite find_node_Elem. destruct (p e) eqn:Hp.
  { intros [= <-]. cbn [alter_below].
    destruct (g_keeps e children Hp) as (e' & children' & -> & Hp').
    by rewrite find_node_Elem, Hp'. }
  intros Hq. destruct q as [|i q]; [by apply find_not_nil in Hq|].
  cbn [alter_below]. rewrite find_node_Elem, Hp.
  by apply find_alter_list.
Qed.

Lemma find_alter_at l q :
  find p l = Some q -> find p (alter_at g l q) = Some q.
Proof using g_keeps.
  apply find_alter_list, Forall_forall. intros n _ q'. apply find_alter_below.
Qed.
End Stable.

Lemma node_at_alter_at g l q n :
  node_at l q = Some n -> node_at (alter_at g l q) q = Some (g n).
Proof.
  revert l. induction q as [|i q IH]; [done|]. intros l.
  rewrite alter_at_cons, !node_at_below, list_lookup_alter_eq.
  destruct (l !! i) as [c|]; [|done]. cbn [fmap option_fmap option_map mbind option_bind].
  destruct q as [|j q]; [by intros [= ->]|].
  cbn [node_below alter_below]. destruct c as [|e children]; [done|]. apply IH.
Qed.

Lemma alter_at_app g l q r :
  q <> [] -> alter_at g l (q ++ r) = alter_at (alter_below g r) l q.
Proof.
  revert l. induction q as [|i q IH]; [done|]. intros l _.
  cbn [app]. rewrite !alter_at_cons.
  apply list_alter_ext; [|reflexivity]. intros n _.
  destruct q as [|j q]; [done|].
  change ((j :: q) ++ r)%list with (j :: (q ++ r))%list.
  cbn [alter_below]. destruct n as [|e children]; [done|].
  f_equal. by apply (IH children).
Qed.

Lemma node_at_app l q r :
  q <> [] -> node_at l (q ++ r) = node_at l q ≫= fun n => node_below n r.
Proof.
  revert l. induction q as [|i q IH]; [done|]. intros l _.
  cbn [app]. rewrite !node_at_below.
  destruct (l !! i) as [c|]; [|done]. cbn [mbind option_bind].
  destruct q as [|j q]; [done|].
  cbn [app node_below]. destruct c as [|e children]; [done|]. by apply IH.
Qed.

(** ** The toggle and its label *)

Lemma alter_below_keeps_element g r e children :
  r <> [] -> alter_below g r (Elem e children) = Elem e (alter_at g children r).
Proof. by destruct r. Qed.

Lemma toggle_label_Some d path :
  toggle_label d = Some path <->
  exists q r e children,
    getElementById d "language-switcher" = Some q /\
    node_at (content d) q = Some (Elem e children) /\
    find (has_class "btn-text") children = Some r /\
    path = (q ++ r)%list.
Proof.
  unfold toggle_label, querySelector_class. split.
  - destruct (getElementById d "language-switcher") as [q|] eqn:Hq; [|done].
    destruct (node_at (content d) q) as [[|e children]|] eqn:He; try done.
    destruct (find (has_class "btn-text") children) as [r|] eqn:Hr; [|done].
    cbn. intros [= <-]. by exists q, r, e, children.
  - intros (q & r & e & children & -> & -> & Hr & ->). by rewrite Hr.
Qed.

(** Writing the text of the label moves neither the toggle nor the label,
    and leaves the toggle's own attributes and listeners alone. *)
Lemma set_label_text d q r e children s :
  getElementById d "language-switcher" = Some q ->
  node_at (content d) q = Some (Elem e children) ->
  find (has_class "btn-text") children = Some r ->
  let d' := set_textContent d (q ++ r) s in
  getElementById d' "language-switcher" = Some q /\
  (exists children', node_at (content d') q = Some (Elem e children')) /\
  toggle_label d' = Some (q ++ r)%list /\
  toggle_label_text d' = Some s.
Proof.
  intros Hq He Hr d'.
  assert (q <> []) as Hq0 by (intros ->; by apply find_not_nil in Hq).
  assert (r <> []) as Hr0 by (intros ->; by apply find_not_nil in Hr).
  assert (content d' = alter_at (alter_below (assign_text s) r) (content d) q)
    as Hcontent by (by apply alter_at_app).
  assert (getElementById d' "language-switcher" = Some q) as Hq'.
  { unfold getElementById. rewrite Hcontent. apply find_alter_at; [|done].
    intros e0 c0 He0. rewrite alter_below_keeps_element by done. eauto. }
  assert (node_at (content d') q =
          Some (Elem e (alter_at (assign_text s) children r))) as He'.
  { rewrite Hcontent. erewrite node_at_alter_at by done.
    by rewrite alter_below_keeps_element. }
  assert (find (has_class "btn-text") (alter_at (assign_text s) children r) = Some r)
    as Hr'.
  { apply find_alter_at; [|done]. intros e0 c0 He0. cbn. eauto. }
  assert (toggle_label d' = Some (q ++ r)%list) as Hlabel.
  { apply toggle_label_Some. by exists q, r, e, (alter_at (assign_text s) children r). }
  split; [done|]. split; [eauto|]. split; [done|].
  unfold toggle_label_text. rewrite Hlabel.
  destruct (find_node_at _ _ _ Hr) as (el & cl & Hl & _).
  assert (node_at (content d) (q ++ r) = Some (Elem el cl)) as Hnode.
  { rewrite node_at_app, He by done. cbn. by destruct r. }
  cbn [content d' set_textContent].
  erewrite node_at_alter_at by done. cbn [fmap option_fmap option_map assign_text].
  by rewrite textContent_text_children.
Qed.


(** [updateLanguageSwitcher], case by case. *)
Lemma updateLanguageSwitcher_label f w path :
  toggle_label (document w) = Some path ->
  updateLanguageSwitcher f w =
  (Returned tt,
   with_document
     (set_textContent (document w) path
        (if String.eqb (currentLanguage w) "zh" then "English" else "中文")) w).
Proof.
  unfold toggle_label, updateLanguageSwitcher. run.
  destruct (getElementById (document w) "language-switcher") as [q|]; [|done].
  intros ->. by destruct (String.eqb (currentLanguage w) "zh").
Qed.

Lemma updateLanguageSwitcher_no_toggle f w :
  getElementById (document w) "language-switcher" = None ->
  updateLanguageSwitcher f w = (Returned tt, w).
Proof. intros Hq. unfold updateLanguageSwitcher. run. by rewrite Hq. Qed.

Lemma updateLanguageSwitcher_no_label w q :
  getElementById (document w) "language-switcher" = Some q ->
  querySelector_class (document w) q "btn-text" = None ->
  updateLanguageSwitcher public_js_i18n_js w = (Returned tt, w).
Proof. intros Hq Hl. unfold updateLanguageSwitcher. run. by rewrite Hq, Hl. Qed.

(** Without a label the document stays as it is, in both files. *)
Lemma updateLanguageSwitcher_without_label f w :
  toggle_label (document w) = None ->
  snd (updateLanguageSwitcher f w) = w.
Proof.
  unfold toggle_label, updateLanguageSwitcher. run.
  destruct (getElementById (document w) "language-switcher") as [q|]; [|done].
  intros ->. by destruct (checks_label f).
Qed.

(** ** Visits *)

Lemma all_nodes_cons c rest : all_nodes (c :: rest) = (nodes_of c ++ all_nodes rest)%list.
Proof. reflexivity. Qed.

Lemma nodes_of_Elem e children :
  nodes_of (Elem e children) = Elem e children :: all_nodes children.
Proof. reflexivity. Qed.

Lemma forEach_cons selected callback c rest :
  forEach selected callback (c :: rest) =
  match forEach_node selected callback c with
  | (c', Some x) => (c' :: rest, Some x)
  | (c', None) =>
      let '(rest', x) := forEach selected callback rest in (c' :: rest', x)
  end.
Proof. reflexivity. Qed.

Lemma no_element_in_text_children s e children :
  Elem e children ∉ all_nodes (text_children s).
Proof.
  destruct s; cbn; [apply not_elem_of_nil|].
  intros [=]%list_elem_of_singleton.
Qed.

Lemma forEach_text_children selected callback s :
  forEach selected callback (text_children s) = (text_children s, None).
Proof. by destruct s. Qed.

Section Visit.
Variable selected : element -> bool.
Variable callback : element -> outcome (element * option string).

(** Each element of the document after a visit that ran to its end is
    what the visit made of an element of the document before. *)
Lemma forEach_list_visited l :
  Forall (fun n =>
    snd (forEach_node selected callback n) = None ->
    forall e' children',
      Elem e' children' ∈ nodes_of (fst (forEach_node selected callback n)) ->
      exists e children,
        Elem e children ∈ nodes_of n /\
        visited selected callback e children e' children') l ->
  snd (forEach selected callback l) = None ->
  forall e' children',
    Elem e' children' ∈ all_nodes (fst (forEach selected callback l)) ->
    exists e children,
      Elem e children ∈ all_nodes l /\
      visited selected callback e children e' children'.
Proof using Type.
  induction 1 as [|c rest Hc _ IHrest]; [by intros _ e' children' ?%elem_of_nil|].
  rewrite forEach_cons.
  destruct (forEach_node selected callback c) as [c' [x|]] eqn:Hfc; [done|].
  destruct (forEach selected callback rest) as [rest' x'] eqn:Hfr.
  cbn [fst snd] in *. intros -> e' children'.
  rewrite all_nodes_cons, elem_of_app. intros [Hin|Hin].
  - destruct (Hc eq_refl e' children' Hin) as (e & children & ? & ?).
    exists e, children. split; [|done].
    rewrite all_nodes_cons, elem_of_app. by left.
  - destruct (IHrest eq_refl e' children' Hin) as (e & children & ? & ?).
    exists e, children. split; [|done].
    rewrite all_nodes_cons, elem_of_app. by right.
Qed.

Lemma forEach_node_visited n :
  snd (forEach_node selected callback n) = None ->
  forall e' children',
    Elem e' children' ∈ nodes_of (fst (forEach_node selected callback n)) ->
    exists e children,
      Elem e children ∈ nodes_of n /\
      visited selected callback e children e' children'.
Proof using Type.
  induction n as [data|e children IH] using node_nested_ind.
  { intros _ e' children' [=]%list_elem_of_singleton. }
  pose proof (forEach_list_visited children IH) as Hlist.
  rewrite forEach_node_Elem. unfold visited.
  destruct (selected e) eqn:Hsel;
    [destruct (callback e) as [[e1 [text|]]|x] eqn:Hcb|].
  - intros _ e' children'. cbn [fst]. rewrite nodes_of_Elem, elem_of_cons.
    intros [[= -> ->]|Hin]; [|by apply no_element_in_text_children in Hin].
    exists e, children. rewrite Hsel, Hcb. split; [apply list_elem_of_here|done].
  - destruct (forEach selected callback children) as [children1 x] eqn:Hfc.
    cbn [fst snd] in *. intros -> e' children'.
    rewrite nodes_of_Elem, elem_of_cons. intros [[= -> ->]|Hin].
    + exists e, children. rewrite Hsel, Hcb, Hfc.
      split; [apply list_elem_of_here|done].
    + destruct (Hlist eq_refl e' children' Hin) as (e0 & c0 & ? & ?).
      exists e0, c0. split; [|done]. rewrite nodes_of_Elem. by apply list_elem_of_further.
  - done.
  - destruct (forEach selected callback children) as [children1 x] eqn:Hfc.
    cbn [fst snd] in *. intros -> e' children'.
    rewrite nodes_of_Elem, elem_of_cons. intros [[= -> ->]|Hin].
    + exists e, children. rewrite Hsel, Hfc.
      split; [apply list_elem_of_here|done].
    + destruct (Hlist eq_refl e' children' Hin) as (e0 & c0 & ? & ?).
      exists e0, c0. split; [|done]. rewrite nodes_of_Elem. by apply list_elem_of_further.
Qed.

Lemma forEach_visited l :
  snd (forEach selected callback l) = None ->
  forall e' children',
    Elem e' children' ∈ all_nodes (fst (forEach selected callback l)) ->
    exists e children,
      Elem e children ∈ all_nodes l /\
      visited selected callback e children e' children'.
Proof using Type.
  apply forEach_list_visited, Forall_forall. intros n _. apply forEach_node_visited.
Qed.

(** A visit whose callback returns on every element it is called on runs
    to its end. *)
Lemma forEach_list_ends l :
  Forall (fun n =>
    (forall e children, Elem e children ∈ nodes_of n -> selected e = true ->
       exists r, callback e = Returned r) ->
    snd (forEach_node selected callback n) = None) l ->
  (forall e children, Elem e children ∈ all_nodes l -> selected e = true ->
     exists r, callback e = Returned r) ->
  snd (forEach selected callback l) = None.
Proof using Type.
  induction 1 as [|c rest Hc _ IHrest]; [done|].
  intros Hall. rewrite forEach_cons.
  destruct (forEach_node selected callback c) as [c' [x|]] eqn:Hfc.
  - cbn [snd] in Hc. rewrite Hc; [done|].
    intros e children Hin. apply (Hall e children).
    rewrite all_nodes_cons, elem_of_app. by left.
  - destruct (forEach selected callback rest) as [rest' x'] eqn:Hfr.
    cbn [snd] in *. apply IHrest.
    intros e children Hin. apply (Hall e children).
    rewrite all_nodes_cons, elem_of_app. by right.
Qed.

Lemma forEach_node_ends n :
  (forall e children, Elem e children ∈ nodes_of n -> selected e = true ->
     exists r, callback e = Returned r) ->
  snd (forEach_node selected callback n) = None.
Proof using Type.
  induction n as [data|e children IH] using node_nested_ind; [done|].
  intros Hall. pose proof (forEach_list_ends children IH) as Hlist.
  assert (snd (forEach selected callback children) = None) as Hchildren.
  { apply Hlist. intros e0 c0 Hin. apply (Hall e0 c0).
    rewrite nodes_of_Elem. by apply list_elem_of_further. }
  rewrite forEach_node_Elem.
  destruct (forEach selected callback children) as [children1 x].
  cbn [snd] in Hchildren. subst x.
  destruct (selected e) eqn:Hsel; [|done].
  destruct (Hall e children) as [[e1 [text|]] ->]; try done.
  rewrite nodes_of_Elem. apply list_elem_of_here.
Qed.

Lemma forEach_ends l :
  (forall e children, Elem e children ∈ all_nodes l -> selected e = true ->
     exists r, callback e = Returned r) ->
  snd (forEach selected callback l) = None.
Proof using Type.
  apply forEach_list_ends, Forall_forall. intros n _. apply forEach_node_ends.
Qed.
End Visit.

(** ** Computations that only touch the document *)

Lemma with_document_same w : with_document (document w) w = w.
Proof. by destruct w. Qed.

Lemma document_only_ret {A : Type} (a : A) : document_only (mret a).
Proof. intros w. exists (document w). by rewrite with_document_same. Qed.

Lemma document_only_throw {A : Type} (e : exn) : document_only (@throw A e).
Proof. intros w. exists (document w). by rewrite with_document_same. Qed.

Lemma document_only_lift {A : Type} (o : outcome A) : document_only (lift o).
Proof. intros w. exists (document w). by rewrite with_document_same. Qed.

Lemma document_only_gets {A : Type} (g : state -> A) : document_only (gets g).
Proof. intros w. exists (document w). by rewrite with_document_same. Qed.

Lemma document_only_modify (g : state -> Document) :
  document_only (modify (fun w => with_document (g w) w)).
Proof. intros w. by exists (g w). Qed.

Lemma document_only_bind {A B : Type} (m : M A) (k : A -> M B) :
  document_only m -> (forall a, document_only (k a)) -> document_only (m ≫= k).
Proof.
  intros Hm Hk w. unfold mbind, M_bind.
  destruct (Hm w) as [d Hd]. destruct (m w) as [[a|e] w1]; simpl in Hd; subst w1.
  - destruct (Hk a (with_document d w)) as [d' Hd']. exists d'. by rewrite Hd'.
  - by exists d.
Qed.

Create HintDb document_only.
#[local] Hint Resolve document_only_ret document_only_throw document_only_lift
  document_only_gets document_only_modify : document_only.

Ltac document_only :=
  repeat first
    [ apply document_only_bind; [|intros ?]
    | progress eauto with document_only
    | match goal with
      | |- document_only (if ?b then _ else _) => destruct b
      | |- document_only (match ?x with _ => _ end) => destruct x
      end ].

Lemma forEach_with_document_only name callback :
  document_only (forEach_with name callback).
Proof.
  intros w. unfold forEach_with.
  destruct (forEach _ _ _) as [nodes x]. by eexists.
Qed.

Lemma applyLanguage_document_only f : document_only (applyLanguage f).
Proof.
  unfold applyLanguage.
  pose proof forEach_with_document_only.
  assert (forall s, document_only (modify (set_document_title s)))
    by (intros s; apply (document_only_modify (fun w => _))).
  document_only.
Qed.

Lemma updateLanguageSwitcher_document_only f :
  document_only (updateLanguageSwitcher f).
Proof.
  unfold updateLanguageSwitcher.
  assert (forall d, document_only (modify (with_document d)))
    by (intros d; apply (document_only_modify (fun _ => d))).
  document_only.
Qed.

Lemma setupLanguageSwitcher_document_only : document_only setupLanguageSwitcher.
Proof.
  unfold setupLanguageSwitcher.
  assert (forall d, document_only (modify (with_document d)))
    by (intros d; apply (document_only_modify (fun _ => d))).
  document_only.
Qed.

(** ** [loadTranslations] *)

(** The resource of the active language loads. *)
Lemma loadTranslations_loads f net w v :
  loads (net (locale_url (currentLanguage w))) v ->
  loadTranslations f net w =
  (Returned tt, with_translations v (record_fetch (locale_url (currentLanguage w)) w)).
Proof.
  intros (status & Hnet & Hok).
  unfold loadTranslations, fetch, json_of. run.
  cbn [currentLanguage record_fetch]. rewrite Hnet. cbn [snd].
  rewrite Hok, andb_false_r. reflexivity.
Qed.

Arguments locale_url : simpl never.
Arguments ok : simpl never.

(** The [try] block throws exactly when the retrieval fails, and has then
    done no more than send the request. *)
Lemma loadTranslations_catch f net w :
  fails f (net (locale_url (currentLanguage w))) = true ->
  loadTranslations f net w =
  let w1 := record_fetch (locale_url (currentLanguage w)) w in
  if String.eqb (currentLanguage w) "en"
  then (response ← fetch net "/js/locales/zh.json";
        v ← json_of response;
        modify (with_translations v)) (with_currentLanguage "zh" w1)
  else (Returned tt, w1).
Proof.
  intros Hfails.
  unfold loadTranslations, fetch, json_of. run.
  destruct (net (locale_url (currentLanguage w))) as [|status json] eqn:Hnet;
    cbn [fails] in Hfails; cbn -[String.eqb].
  - by destruct (String.eqb (currentLanguage w) "en").
  - destruct (checks_status f && negb (ok (status, json))); cbn -[String.eqb].
    + by destruct (String.eqb (currentLanguage w) "en").
    + cbn [orb] in Hfails. apply bool_decide_eq_true in Hfails as ->.
      cbn -[String.eqb]. by destruct (String.eqb (currentLanguage w) "en").
Qed.


(** A failure while the active language is not English is only logged. *)
Lemma loadTranslations_logged f net w :
  currentLanguage w <> "en" ->
  fails f (net (locale_url (currentLanguage w))) = true ->
  loadTranslations f net w =
  (Returned tt, record_fetch (locale_url (currentLanguage w)) w).
Proof.
  intros Hlang Hfails. rewrite loadTranslations_catch by done.
  by rewrite (proj2 (String.eqb_neq _ _) Hlang).
Qed.

(** C5.  When [loadTranslations()] fails while the active language is
    already the default one, the call returns, and the active language and
    the translation mapping are what they were before it. *)
Theorem loadTranslations_failure_keeps_state f net w :
  currentLanguage w = "zh" ->
  fails f (net (locale_url "zh")) = true ->
  fst (loadTranslations f net w) = Returned tt /\
  currentLanguage (snd (loadTranslations f net w)) = currentLanguage w /\
  translations (snd (loadTranslations f net w)) = translations w.
Proof.
  intros Hlang Hfails.
  rewrite loadTranslations_logged by (rewrite Hlang; done).
  done.
Qed.

(** The theorem where nothing answers. *)
Lemma loadTranslations_failure_keeps_state_witness :
  currentLanguage (constructed ∅ page_with_toggle) = "zh" /\
  fails public_js_i18n_js (net_down (locale_url "zh")) = true /\
  translations
    (snd (loadTranslations public_js_i18n_js net_down
            (constructed ∅ page_with_toggle))) = VObject ∅.
Proof.
  split; [reflexivity|]. split; [reflexivity|].
  apply (loadTranslations_failure_keeps_state public_js_i18n_js net_down
           (constructed ∅ page_with_toggle)); reflexivity.
Defined.

(** ** [switchLanguage] and the click listener *)

Lemma bind_returned {A B : Type} (m : M A) (k : A -> M B) w a w' :
  m w = (Returned a, w') -> (m ≫= k) w = k a w'.
Proof. intros Hm. unfold mbind, M_bind. by rewrite Hm. Qed.

Lemma bind_thrown {A B : Type} (m : M A) (k : A -> M B) w e w' :
  m w = (Thrown e, w') -> (m ≫= k) w = (Thrown e, w').
Proof. intros Hm. unfold mbind, M_bind. by rewrite Hm. Qed.

(** What follows a computation and only touches the document leaves the
    rest of the state as the computation left it. *)
Lemma bind_document_only {A B : Type} (m : M A) (k : A -> M B) w :
  (forall a, document_only (k a)) ->
  exists d, snd ((m ≫= k) w) = with_document d (snd (m w)).
Proof.
  intros Hk. unfold mbind, M_bind. destruct (m w) as [[a|e] w'].
  - apply Hk.
  - exists (document w'). by rewrite with_document_same.
Qed.

(** C3.  [switchLanguage(lang)] with the active language for [lang] returns
    at once: nothing is written to the preference store, nothing is
    fetched, the mapping and the document are not touched; the state after
    the call, requests made included, is the state before it. *)
Theorem switchLanguage_same_language f net w :
  switchLanguage f net (currentLanguage w) w = (Returned tt, w).
Proof.
  unfold switchLanguage. run. by rewrite String.eqb_refl.
Qed.

(** With another language the call stores it, loads, applies and
    refreshes the label. *)
Lemma switchLanguage_other_language f net lang w :
  lang <> currentLanguage w ->
  switchLanguage f net lang w =
  (loadTranslations f net;; applyLanguage f;; updateLanguageSwitcher f)
    (setItem "language" lang (with_currentLanguage lang w)).
Proof.
  intros Hlang. unfold switchLanguage. run.
  by rewrite (proj2 (String.eqb_neq _ _) Hlang).
Qed.

Lemma after_load_document_only f :
  forall a : unit, document_only (applyLanguage f;; updateLanguageSwitcher f).
Proof.
  intros _. apply document_only_bind; [apply applyLanguage_document_only|].
  intros _. apply updateLanguageSwitcher_document_only.
Qed.




(** [loadTranslations] touches neither the preference store nor the
    document. *)
Lemma loadTranslations_frame f net w :
  localStorage (snd (loadTranslations f net w)) = localStorage w /\
  document (snd (loadTranslations f net w)) = document w /\
  timers (snd (loadTranslations f net w)) = timers w.
Proof.
  unfold loadTranslations, fetch, json_of. run.
  destruct (net (locale_url (currentLanguage w))) as [|status json];
    cbn -[String.eqb].
  2: destruct (checks_status f && negb (ok (status, json))); cbn -[String.eqb].
  3: destruct json; cbn -[String.eqb]; [done|].
  all: destruct (String.eqb (currentLanguage w) "en"); cbn; [|done].
  all: destruct (net "/js/locales/zh.json") as [|status' [v|]]; cbn; done.
Qed.



(** ** The status of the response *)

(** In [public/js/i18n.js] a response whose status is not one of success
    is handled as a request that got no response. *)
Lemma non_ok_response_is_failure net net' w status json :
  net (locale_url (currentLanguage w)) = Response status json ->
  ok (status, json) = false ->
  net' (locale_url (currentLanguage w)) = NetworkError ->
  (forall url, url <> locale_url (currentLanguage w) -> net' url = net url) ->
  loadTranslations public_js_i18n_js net w =
  loadTranslations public_js_i18n_js net' w.
Proof.
  intros Hnet Hok Hnet' Hsame.
  rewrite !loadTranslations_catch.
  - cbn zeta. destruct (String.eqb_spec (currentLanguage w) "en") as [Hen|]; [|done].
    unfold fetch. run. rewrite Hsame; [done|]. by rewrite Hen.
  - by rewrite Hnet'.
  - rewrite Hnet. cbn [fails checks_status]. by rewrite Hok.
Qed.

(** C6, where it fails.  At the retry of [public/js/i18n.js]: the active
    language is English, the English resource cannot be fetched and the
    server answers the request for the Chinese one with status 404 and a
    body that is JSON.  The retry does not look at the status, and the body
    of the error page becomes the translation mapping.  In the second file
    the first request does not look at the status either: with the active
    language Chinese and the same answer, the body of the error page
    becomes the translation mapping as well. *)
Theorem retry_takes_non_ok_response :
  let w := with_currentLanguage "en" (constructed ∅ page_with_toggle) in
  let net : network := fun url =>
    if String.eqb url "/js/locales/zh.json"
    then Response 404 (Some error_body) else NetworkError in
  ok (404%nat, Some error_body) = false /\
  fst (loadTranslations public_js_i18n_js net w) = Returned tt /\
  currentLanguage (snd (loadTranslations public_js_i18n_js net w)) = "zh" /\
  translations (snd (loadTranslations public_js_i18n_js net w)) = error_body /\
  translations
    (snd (loadTranslations unnamed_part_000 net_json_errors
            (constructed ∅ page_with_toggle))) = error_body.
Proof. repeat split. Qed.

(** ** [t] never fails *)

(** C7 as the specification has it fails for the empty key without a
    fallback: [t('')] on the empty table is the empty string. *)
Lemma t_blank_for_empty_key :
  ~ (exists s, t (VObject ∅) "" "" = Returned s /\ s <> "").
Proof. intros (s & [= <-] & Hs). by apply Hs. Qed.

(** A leaf that is the empty string is returned as it is. *)
Lemma t_blank_for_empty_leaf :
  t (VObject {[ "a" := VString "" ]}) "a" "fallback" = Returned "".
Proof. reflexivity. Qed.

(** C7, amended.  For every table, key and fallback, [t(key, fallback)]
    returns a string and does not throw.  The string is empty in two cases
    only: the key leads to a leaf that is the empty string, or the key leads
    to no string and both the fallback and the key are empty. *)
Theorem t_returns translations key fallback :
  exists s,
    t translations key fallback = Returned s /\
    (s = "" <->
     descend (split "." key) translations = Some (VString "") \/
     ((forall x, descend (split "." key) translations <> Some (VString x)) /\
      fallback = "" /\ key = "")).
Proof.
  exists (t_descent translations key fallback).
  split; [apply t_is_descent|].
  unfold t_descent.
  destruct (descend (split "." key) translations) as [v|] eqn:Hd.
  1: destruct v.
  all: try (split;
    [ intros Hs; right; split; [discriminate|];
      by destruct fallback; [destruct key|]
    | intros [? | (_ & -> & ->)]; [discriminate | reflexivity] ]).
  split.
  - intros ->. by left.
  - intros [[= ->] | (Hno & _)]; [done|]. by destruct (Hno s).
Qed.

(** ** [applyLanguage], pass by pass *)

Lemma bind_returned_inv {A B : Type} (m : M A) (k : A -> M B) w b w2 :
  (m ≫= k) w = (Returned b, w2) ->
  exists a w1, m w = (Returned a, w1) /\ k a w1 = (Returned b, w2).
Proof.
  unfold mbind, M_bind. destruct (m w) as [[a|e] w1]; [eauto | done].
Qed.

Lemma forEach_with_returned name callback w w' :
  forEach_with name callback w = (Returned tt, w') ->
  exists nodes,
    forEach (has_attribute name) callback (content (document w)) = (nodes, None) /\
    w' = with_document {| title := title (document w); content := nodes |} w.
Proof.
  unfold forEach_with.
  destruct (forEach _ _ _) as [nodes [x|]]; [done|].
  intros [= <-]. by exists nodes.
Qed.

(** The document [applyLanguage] leaves when it returns: the title is
    written, then the four visits run one after the other, each to its
    end. *)
Lemma applyLanguage_returned f w w' :
  applyLanguage f w = (Returned tt, w') ->
  exists s l1 l2 l3 l4,
    t (translations w) "page.title" "" = Returned s /\
    forEach (has_attribute "data-i18n") (translate_text (translations w))
      (content (document w)) = (l1, None) /\
    forEach (has_attribute "data-i18n-attr") (translate_attr (translations w)) l1
      = (l2, None) /\
    forEach (has_attribute "data-i18n-title") (translate_title (translations w)) l2
      = (l3, None) /\
    forEach (has_attribute "data-i18n-placeholder")
      (translate_placeholder (translations w)) l3 = (l4, None) /\
    w' = with_document {| title := s; content := l4 |} w.
Proof.
  unfold applyLanguage. intros H.
  apply bind_returned_inv in H as (tr & w1 & [= <- <-] & H).
  apply bind_returned_inv in H as ([] & w1 & Hkeys & H).
  assert (w1 = w) as -> by (destruct (logs_keys f); [unfold lift in Hkeys|]; by injection Hkeys).
  clear Hkeys.
  apply bind_returned_inv in H as (s & w1 & [= Ht <-] & H).
  apply bind_returned_inv in H as ([] & w1 & [= <-] & H).
  apply bind_returned_inv in H as ([] & w1 & (l1 & H1 & ->)%forEach_with_returned & H).
  apply bind_returned_inv in H as ([] & w2 & (l2 & H2 & ->)%forEach_with_returned & H).
  apply bind_returned_inv in H as ([] & w3 & (l3 & H3 & ->)%forEach_with_returned & H).
  apply forEach_with_returned in H as (l4 & H4 & ->).
  exists s, l1, l2, l3, l4. cbn in *. done.
Qed.


(** None of the four callbacks touches the tag or the listeners. *)
Lemma set_placeholder_listeners e v :
  listeners (set_placeholder e v) = listeners e.
Proof. unfold set_placeholder. by destruct (is_input_like e). Qed.

Lemma translate_text_listeners tr e e1 o :
  translate_text tr e = Returned (e1, o) -> listeners e1 = listeners e.
Proof.
  unfold translate_text. destruct (t_of _ _) as [text|]; [|done]. cbn.
  destruct (is_input_like e) eqn:Hinput; intros [= <- <-]; [|done].
  apply set_placeholder_listeners.
Qed.

Lemma translate_attr_listeners tr e e1 o :
  translate_attr tr e = Returned (e1, o) -> listeners e1 = listeners e.
Proof.
  unfold translate_attr. destruct (getAttribute e "data-i18n-attr"); [|done].
  destruct (t_of _ _) as [text|]; [|done]. cbn. unfold setAttribute.
  destruct (valid_attribute_name _); [|done]. by intros [= <- <-].
Qed.

Lemma translate_title_listeners tr e e1 o :
  translate_title tr e = Returned (e1, o) -> listeners e1 = listeners e.
Proof.
  unfold translate_title. destruct (t_of _ _) as [text|]; [|done]. cbn.
  by intros [= <- <-].
Qed.

Lemma translate_placeholder_listeners tr e e1 o :
  translate_placeholder tr e = Returned (e1, o) -> listeners e1 = listeners e.
Proof.
  unfold translate_placeholder. destruct (t_of _ _) as [text|]; [|done]. cbn.
  intros [= <- <-]. apply set_placeholder_listeners.
Qed.

Lemma listener_free_spec l :
  listener_free l = true <->
  forall e children, Elem e children ∈ all_nodes l -> listeners e = [].
Proof.
  unfold listener_free. rewrite forallb_forall. split.
  - intros H e children Hin%list_elem_of_In.
    specialize (H _ Hin). by apply bool_decide_eq_true in H.
  - intros H [data|e children] Hin%list_elem_of_In; [done|].
    apply bool_decide_eq_true. eauto.
Qed.


(** ** Initialization and the click *)

Lemma nodes_of_self n : n ∈ nodes_of n.
Proof. destruct n; apply list_elem_of_here. Qed.

Lemma node_at_all_nodes l q n : node_at l q = Some n -> n ∈ all_nodes l.
Proof.
  revert l. induction q as [|i q IH]; [done|]. intros l.
  rewrite node_at_below. destruct (l !! i) as [c|] eqn:Hi; [|done].
  cbn [mbind option_bind]. intros Hn.
  assert (n ∈ nodes_of c) as Hin.
  { destruct q as [|j q]; [injection Hn as ->; apply nodes_of_self|].
    cbn [node_below] in Hn. destruct c as [|e children]; [done|].
    rewrite nodes_of_Elem. apply list_elem_of_further. by apply IH. }
  clear Hn. revert i Hi. induction l as [|c0 rest IHrest]; [done|].
  intros [|i]; rewrite all_nodes_cons, elem_of_app.
  - intros [= ->]. by left.
  - intros Hi. right. by apply (IHrest i).
Qed.

Lemma setupLanguageSwitcher_run w :
  setupLanguageSwitcher w =
  (Returned tt,
   match getElementById (document w) "language-switcher" with
   | Some q => with_document (addEventListener (document w) q ToggleLanguage) w
   | None => w
   end).
Proof.
  unfold setupLanguageSwitcher. run.
  by destruct (getElementById (document w) "language-switcher").
Qed.



(** [updateLanguageSwitcher] on a toggle that has its label. *)
Lemma updateLanguageSwitcher_refreshes f w :
  is_Some (toggle_label (document w)) ->
  let w' := snd (updateLanguageSwitcher f w) in
  fst (updateLanguageSwitcher f w) = Returned tt /\
  w' = with_document (document w') w /\
  toggle_label_text (document w') = Some (label_for (currentLanguage w)) /\
  forall q e children,
    getElementById (document w) "language-switcher" = Some q ->
    node_at (content (document w)) q = Some (Elem e children) ->
    getElementById (document w') "language-switcher" = Some q /\
    exists children', node_at (content (document w')) q = Some (Elem e children').
Proof.
  intros [path Hpath]. rewrite (updateLanguageSwitcher_label f w path Hpath).
  cbn [fst snd document with_document]. fold (label_for (currentLanguage w)).
  apply toggle_label_Some in Hpath as (q & r & e & children & Hq & He & Hr & ->).
  destruct (set_label_text (document w) q r e children
              (label_for (currentLanguage w)) Hq He Hr) as (Hq' & He' & _ & Htext).
  split; [done|]. split; [done|]. split; [done|].
  intros q0 e0 children0 Hq0 He0.
  assert (q0 = q) as -> by congruence.
  assert (e0 = e) as -> by congruence.
  done.
Qed.




(** ** A toggle without its label *)

(** C9, in the second file: the toggle is in the document and has no
    element of class [btn-text] below it.  [updateLanguageSwitcher] of the
    second file assigns to [text.textContent] without testing [text] and
    throws a [TypeError]; [public/js/i18n.js] tests it and returns (lemma
    [updateLanguageSwitcher_no_label]). *)
Theorem part_000_throws_without_label :
  let w := constructed ∅ page_without_label in
  is_Some (getElementById (document w) "language-switcher") /\
  toggle_label (document w) = None /\
  updateLanguageSwitcher unnamed_part_000 w =
    (Thrown (TypeError "Cannot set properties of null (setting 'textContent')"), w) /\
  updateLanguageSwitcher public_js_i18n_js w = (Returned tt, w).
Proof.
  split; [eexists; reflexivity|]. split; [reflexivity|].
  split; reflexivity.
Qed.

(** ** The four callbacks *)

Lemma t_of_Some tr key : t_of tr (Some key) = Returned (t_descent tr key "").
Proof. apply t_is_descent. Qed.

Lemma has_attribute_true name e :
  has_attribute name e = true <-> exists v, attributes e !! name = Some v.
Proof. unfold has_attribute. by rewrite bool_decide_eq_true. Qed.

Lemma has_attribute_false name e :
  has_attribute name e = false <-> attributes e !! name = None.
Proof.
  unfold has_attribute. rewrite bool_decide_eq_false, <- eq_None_not_Some. done.
Qed.

Lemma translate_text_eval tr e key :
  attributes e !! "data-i18n" = Some key ->
  translate_text tr e =
  Returned (after_text tr e,
            if is_input_like e then None else Some (t_descent tr key "")).
Proof.
  intros Hkey. unfold translate_text, after_text, getAttribute.
  change (lowercase "data-i18n") with "data-i18n".
  rewrite Hkey, t_of_Some. cbn. by destruct (is_input_like e).
Qed.

Lemma translate_attr_eval tr e :
  has_attribute "data-i18n-attr" e = true ->
  attr_binding_ok e = true ->
  translate_attr tr e = Returned (after_attr tr e, None).
Proof.
  intros [marker Hmarker]%has_attribute_true.
  unfold attr_binding_ok, translate_attr, after_attr, attr_binding, getAttribute.
  change (lowercase "data-i18n-attr") with "data-i18n-attr". rewrite Hmarker.
  destruct (split ":" marker) as [|attr [|key rest]]; try done.
  intros [Hvalid _]%andb_true_iff.
  cbn [lookup list_lookup default]. rewrite t_of_Some. cbn.
  unfold setAttribute. by rewrite Hvalid.
Qed.

Lemma translate_title_eval tr e key :
  attributes e !! "data-i18n-title" = Some key ->
  translate_title tr e = Returned (after_title tr e, None).
Proof.
  intros Hkey. unfold translate_title, after_title, getAttribute.
  change (lowercase "data-i18n-title") with "data-i18n-title".
  by rewrite Hkey, t_of_Some.
Qed.

Lemma translate_placeholder_eval tr e key :
  attributes e !! "data-i18n-placeholder" = Some key ->
  translate_placeholder tr e = Returned (after_placeholder tr e, None).
Proof.
  intros Hkey. unfold translate_placeholder, after_placeholder, getAttribute.
  change (lowercase "data-i18n-placeholder") with "data-i18n-placeholder".
  by rewrite Hkey, t_of_Some.
Qed.

(** What each visit makes of an element and of its children. *)
Lemma visited_text tr e children e' children' :
  visited (has_attribute "data-i18n") (translate_text tr) e children e' children' ->
  e' = after_text tr e /\
  children' =
    match attributes e !! "data-i18n" with
    | Some key =>
        if is_input_like e
        then fst (forEach (has_attribute "data-i18n") (translate_text tr) children)
        else text_children (t_descent tr key "")
    | None => fst (forEach (has_attribute "data-i18n") (translate_text tr) children)
    end.
Proof.
  unfold visited. destruct (has_attribute "data-i18n" e) eqn:Hsel.
  - apply has_attribute_true in Hsel as [key Hkey].
    rewrite (translate_text_eval tr e key Hkey), Hkey.
    by destruct (is_input_like e).
  - apply has_attribute_false in Hsel. unfold after_text. by rewrite Hsel.
Qed.

Lemma visited_attr tr e children e' children' :
  attr_binding_ok e = true ->
  visited (has_attribute "data-i18n-attr") (translate_attr tr) e children e' children' ->
  e' = after_attr tr e /\
  children' = fst (forEach (has_attribute "data-i18n-attr") (translate_attr tr) children).
Proof.
  intros Hok. unfold visited. destruct (has_attribute "data-i18n-attr" e) eqn:Hsel.
  - by rewrite translate_attr_eval.
  - apply has_attribute_false in Hsel. unfold after_attr, attr_binding. by rewrite Hsel.
Qed.

Lemma visited_title tr e children e' children' :
  visited (has_attribute "data-i18n-title") (translate_title tr) e children e' children' ->
  e' = after_title tr e /\
  children' = fst (forEach (has_attribute "data-i18n-title") (translate_title tr) children).
Proof.
  unfold visited. destruct (has_attribute "data-i18n-title" e) eqn:Hsel.
  - apply has_attribute_true in Hsel as [key Hkey].
    by rewrite (translate_title_eval tr e key Hkey).
  - apply has_attribute_false in Hsel. unfold after_title. by rewrite Hsel.
Qed.

Lemma visited_placeholder tr e children e' children' :
  visited (has_attribute "data-i18n-placeholder") (translate_placeholder tr)
    e children e' children' ->
  e' = after_placeholder tr e /\
  children' =
    fst (forEach (has_attribute "data-i18n-placeholder") (translate_placeholder tr)
           children).
Proof.
  unfold visited. destruct (has_attribute "data-i18n-placeholder" e) eqn:Hsel.
  - apply has_attribute_true in Hsel as [key Hkey].
    by rewrite (translate_placeholder_eval tr e key Hkey).
  - apply has_attribute_false in Hsel. unfold after_placeholder. by rewrite Hsel.
Qed.

Lemma attr_bindings_ok_spec l :
  attr_bindings_ok l = true <->
  forall e children, Elem e children ∈ all_nodes l -> attr_binding_ok e = true.
Proof.
  unfold attr_bindings_ok. rewrite forallb_forall. split.
  - intros H e children Hin%list_elem_of_In. apply (H _ Hin).
  - intros H [data|e children] Hin%list_elem_of_In; [done|]. eauto.
Qed.

(** The pass of the plain text bindings writes the placeholder of an
    input and no other attribute. *)
Lemma after_text_attributes tr e name :
  name <> "placeholder" ->
  attributes (after_text tr e) !! name = attributes e !! name.
Proof.
  intros Hname. unfold after_text, set_placeholder.
  destruct (attributes e !! "data-i18n"); [|done].
  destruct (is_input_like e); [|done].
  cbn [attributes with_attributes]. by rewrite lookup_insert_ne.
Qed.

Lemma after_text_binding_ok tr e :
  attr_binding_ok (after_text tr e) = attr_binding_ok e.
Proof.
  unfold attr_binding_ok, attr_binding.
  by rewrite after_text_attributes.
Qed.

Lemma text_pass_ends tr l :
  forEach (has_attribute "data-i18n") (translate_text tr) l = (text_pass tr l, None).
Proof.
  rewrite (surjective_pairing (forEach _ _ l)). fold (text_pass tr l). f_equal.
  apply forEach_ends. intros e children _ [key Hkey]%has_attribute_true.
  rewrite (translate_text_eval tr e key Hkey). eauto.
Qed.

Lemma text_pass_keeps_bindings_ok tr l e children :
  attr_bindings_ok l = true ->
  Elem e children ∈ all_nodes (text_pass tr l) ->
  attr_binding_ok e = true.
Proof.
  intros Hok Hin.
  destruct (forEach_visited (has_attribute "data-i18n") (translate_text tr) l)
    with (e' := e) (children' := children)
    as (e0 & children0 & Hin0 & Hvisited); [by rewrite text_pass_ends|done|].
  apply visited_text in Hvisited as [-> _].
  rewrite after_text_binding_ok.
  by apply (proj1 (attr_bindings_ok_spec l) Hok e0 children0).
Qed.

Lemma attr_pass_ends tr l :
  (forall e children, Elem e children ∈ all_nodes l -> attr_binding_ok e = true) ->
  forEach (has_attribute "data-i18n-attr") (translate_attr tr) l = (attr_pass tr l, None).
Proof.
  intros Hok.
  rewrite (surjective_pairing (forEach _ _ l)). fold (attr_pass tr l). f_equal.
  apply forEach_ends. intros e children Hin Hsel.
  rewrite translate_attr_eval; [eauto|done|]. by apply (Hok e children).
Qed.

Lemma title_pass_ends tr l :
  forEach (has_attribute "data-i18n-title") (translate_title tr) l
  = (title_pass tr l, None).
Proof.
  rewrite (surjective_pairing (forEach _ _ l)). fold (title_pass tr l). f_equal.
  apply forEach_ends. intros e children _ [key Hkey]%has_attribute_true.
  rewrite (translate_title_eval tr e key Hkey). eauto.
Qed.

Lemma placeholder_pass_ends tr l :
  forEach (has_attribute "data-i18n-placeholder") (translate_placeholder tr) l
  = (placeholder_pass tr l, None).
Proof.
  rewrite (surjective_pairing (forEach _ _ l)). fold (placeholder_pass tr l). f_equal.
  apply forEach_ends. intros e children _ [key Hkey]%has_attribute_true.
  rewrite (translate_placeholder_eval tr e key Hkey). eauto.
Qed.

(** When the table is not [null] where its keys are listed and the
    attribute bindings are well formed, [applyLanguage] returns. *)
Lemma applyLanguage_runs f w :
  (logs_keys f = true -> nullish (translations w) = false) ->
  attr_bindings_ok (content (document w)) = true ->
  applyLanguage f w =
  (Returned tt,
   with_document
     {| title := t_descent (translations w) "page.title" "";
        content := four_passes (translations w) (content (document w)) |} w).
Proof.
  intros Hnull Hok.
  assert (logs_keys f = true -> Object_keys (translations w) = Returned tt) as Hkeys.
  { intros Hlogs. specialize (Hnull Hlogs). by destruct (translations w). }
  pose proof (text_pass_ends (translations w) (content (document w))) as H1.
  pose proof (attr_pass_ends (translations w)
                (text_pass (translations w) (content (document w)))) as H2.
  unfold applyLanguage, forEach_with, four_passes. run.
  destruct (logs_keys f); [rewrite (Hkeys eq_refl)|];
    rewrite t_is_descent;
    cbn [document set_document_title with_document content title];
    rewrite H1;
    cbn [document with_document content title];
    (rewrite H2 by (intros e children; by apply text_pass_keeps_bindings_ok));
    cbn [document with_document content title]; rewrite title_pass_ends;
    cbn [document with_document content title]; rewrite placeholder_pass_ends;
    reflexivity.
Qed.

(** Every element of the document afterwards is what the four callbacks
    make of an element of the document before; the children of an
    element that is not an input and has a plain text binding are the
    text of its key. *)
Lemma applyLanguage_elements tr l e4 children4 :
  attr_bindings_ok l = true ->
  Elem e4 children4 ∈ all_nodes (four_passes tr l) ->
  exists e0 children0,
    Elem e0 children0 ∈ all_nodes l /\
    e4 = after_all tr e0 /\
    forall key, attributes e0 !! "data-i18n" = Some key ->
                is_input_like e0 = false ->
                children4 = text_children (t_descent tr key "").
Proof.
  intros Hok Hin4. unfold four_passes in Hin4.
  destruct (forEach_visited (has_attribute "data-i18n-placeholder")
              (translate_placeholder tr)
              (title_pass tr (attr_pass tr (text_pass tr l))))
    with (e' := e4) (children' := children4)
    as (e3 & children3 & Hin3 & [-> ->]%visited_placeholder);
    [by rewrite placeholder_pass_ends|done|].
  destruct (forEach_visited (has_attribute "data-i18n-title")
              (translate_title tr) (attr_pass tr (text_pass tr l)))
    with (e' := e3) (children' := children3)
    as (e2 & children2 & Hin2 & [-> ->]%visited_title);
    [by rewrite title_pass_ends|done|].
  assert (forall e children, Elem e children ∈ all_nodes (text_pass tr l) ->
            attr_binding_ok e = true) as Hok1
    by (intros e children; by apply text_pass_keeps_bindings_ok).
  destruct (forEach_visited (has_attribute "data-i18n-attr")
              (translate_attr tr) (text_pass tr l))
    with (e' := e2) (children' := children2)
    as (e1 & children1 & Hin1 & Hvisited); [by rewrite attr_pass_ends|done|].
  apply visited_attr in Hvisited as [-> ->]; [|by apply (Hok1 e1 children1)].
  destruct (forEach_visited (has_attribute "data-i18n") (translate_text tr) l)
    with (e' := e1) (children' := children1)
    as (e0 & children0 & Hin0 & [-> ->]%visited_text);
    [by rewrite text_pass_ends|done|].
  exists e0, children0. split; [done|]. split; [done|].
  intros key Hkey Hinput. rewrite Hkey, Hinput.
  by do 3 (rewrite forEach_text_children; cbn [fst]).
Qed.

(** ** The attributes after the four passes *)

Lemma set_placeholder_tagName e v : tagName (set_placeholder e v) = tagName e.
Proof. unfold set_placeholder. by destruct (is_input_like e). Qed.

Lemma after_text_tagName tr e : tagName (after_text tr e) = tagName e.
Proof.
  unfold after_text. destruct (attributes e !! "data-i18n"); [|done].
  destruct (is_input_like e) eqn:Hinput; [|done]. apply set_placeholder_tagName.
Qed.

Lemma after_attr_tagName tr e : tagName (after_attr tr e) = tagName e.
Proof. unfold after_attr. by destruct (attr_binding e) as [[attr key]|]. Qed.

Lemma after_title_tagName tr e : tagName (after_title tr e) = tagName e.
Proof. unfold after_title. by destruct (attributes e !! "data-i18n-title"). Qed.

Lemma after_placeholder_tagName tr e : tagName (after_placeholder tr e) = tagName e.
Proof.
  unfold after_placeholder. destruct (attributes e !! "data-i18n-placeholder"); [|done].
  apply set_placeholder_tagName.
Qed.

Lemma after_all_input_like tr e : is_input_like (after_all tr e) = is_input_like e.
Proof.
  unfold is_input_like, after_all.
  by rewrite after_placeholder_tagName, after_title_tagName, after_attr_tagName,
    after_text_tagName.
Qed.


Lemma after_attr_attributes tr e name :
  (forall attr key, attr_binding e = Some (attr, key) -> lowercase attr <> name) ->
  attributes (after_attr tr e) !! name = attributes e !! name.
Proof.
  intros Hname. unfold after_attr.
  destruct (attr_binding e) as [[attr key]|]; [|done].
  cbn [attributes with_attributes]. apply lookup_insert_ne. eauto.
Qed.


Lemma after_title_attributes tr e name :
  name <> "title" \/ attributes e !! "data-i18n-title" = None ->
  attributes (after_title tr e) !! name = attributes e !! name.
Proof.
  intros Hname. unfold after_title, set_title.
  destruct (attributes e !! "data-i18n-title") as [key|]; [|done].
  destruct Hname as [Hname|]; [|done].
  cbn [attributes with_attributes]. by apply lookup_insert_ne.
Qed.

Lemma after_placeholder_attributes tr e name :
  name <> "placeholder" \/ attributes e !! "data-i18n-placeholder" = None
  \/ is_input_like e = false ->
  attributes (after_placeholder tr e) !! name = attributes e !! name.
Proof.
  intros Hname. unfold after_placeholder, set_placeholder.
  destruct (attributes e !! "data-i18n-placeholder") as [key|]; [|done].
  destruct (is_input_like e); [|done].
  destruct Hname as [Hname|[|]]; [|done..].
  cbn [attributes with_attributes]. by apply lookup_insert_ne.
Qed.

(** A well formed attribute binding names no marker. *)
Lemma attr_binding_ok_not_marker e attr key :
  attr_binding_ok e = true ->
  attr_binding e = Some (attr, key) ->
  lowercase attr ∉ binding_markers.
Proof.
  unfold attr_binding_ok. intros Hok Hbinding. rewrite Hbinding in Hok.
  destruct (attributes e !! "data-i18n-attr") eqn:Hmarker.
  - apply andb_true_iff in Hok as [_ Hnot].
    by apply negb_true_iff, bool_decide_eq_false in Hnot.
  - unfold attr_binding in Hbinding. by rewrite Hmarker in Hbinding.
Qed.

Lemma attr_binding_same e e' :
  attributes e' !! "data-i18n-attr" = attributes e !! "data-i18n-attr" ->
  attr_binding e' = attr_binding e.
Proof. intros H. unfold attr_binding. by rewrite H. Qed.

(** The four passes leave the markers as they were. *)
Lemma after_all_markers tr e name :
  attr_binding_ok e = true ->
  name ∈ binding_markers ->
  attributes (after_all tr e) !! name = attributes e !! name.
Proof.
  intros Hok Hname. unfold after_all.
  assert (name <> "placeholder" /\ name <> "title") as [Hp Ht].
  { revert Hname. unfold binding_markers.
    rewrite !elem_of_cons, elem_of_nil. by intros [->|[->|[->|[->|[]]]]]. }
  rewrite after_placeholder_attributes by (by left).
  rewrite after_title_attributes by (by left).
  rewrite after_attr_attributes; [by apply after_text_attributes|].
  intros attr key Hbinding Heq. subst name.
  rewrite (attr_binding_same e) in Hbinding by (by apply after_text_attributes).
  by apply (attr_binding_ok_not_marker e attr key).
Qed.

Lemma after_all_binding tr e :
  attr_binding_ok e = true -> attr_binding (after_all tr e) = attr_binding e.
Proof.
  intros Hok. apply attr_binding_same, after_all_markers; [done|].
  unfold binding_markers. rewrite !elem_of_cons. auto.
Qed.







(** ** [applyLanguage] *)




(** The example of the specification: with [{"page": {"title": "Hello"}}]
    and [<span data-i18n="page.title">], the title of the document and the
    text of the element are ['Hello'] afterwards; the attribute binding of
    the second element gives it the attribute. *)
Example applyLanguage_on_sample_page :
  let w' := snd (applyLanguage public_js_i18n_js
                   (with_translations en_table (constructed ∅ page_with_bindings))) in
  title (document w') = "Hello" /\
  textContent <$> node_at (content (document w')) [0%nat] = Some "Hello" /\
  (node_at (content (document w')) [1%nat] ≫= fun n =>
     match n with
     | Elem e _ => getAttribute e "aria-label"
     | Text _ => None
     end) = Some "Hello".
Proof. repeat split. Qed.

(** * Further properties *)

(** ** [t] on any table *)

(** X1.  For every table, arrays included, and every key and fallback,
    [t(key, fallback)] returns, and what it returns is found by descending
    own properties only: an object by its keys, an array by the positions
    of its items written in decimal.  What objects and arrays inherit
    ([constructor], [toString], [__proto__], the [length] of an array)
    never leads to a string. *)
Theorem t_descends_own_properties translations key fallback :
  t translations key fallback =
  Returned (match descend (split "." key) translations with
            | Some (VString s) => s
            | _ => or_else fallback key
            end).
Proof. unfold t. apply t_loop_descend. Qed.

(** X2.  When the table has no own entry for the first segment of the key,
    [t] gives the fallback, or the key when the fallback is empty; so it is
    for every key on the empty table the class starts with, also for the
    names every object inherits. *)
Theorem t_misses_without_first_segment translations key fallback :
  entry translations (hd "" (split "." key)) = None ->
  t translations key fallback = Returned (or_else fallback key).
Proof.
  intros Hfirst. rewrite t_is_descent. unfold t_descent.
  destruct (split "." key) as [|k rest] eqn:Hsplit.
  - by apply split_not_nil in Hsplit.
  - cbn [hd] in Hfirst. cbn [descend]. by rewrite Hfirst.
Qed.

(** The theorem on the empty table, for a name that objects inherit. *)
Lemma t_misses_without_first_segment_witness :
  entry (VObject ∅) (hd "" (split "." "constructor.name")) = None /\
  t (VObject ∅) "constructor.name" "" = Returned "constructor.name".
Proof.
  split; [reflexivity|].
  apply (t_misses_without_first_segment (VObject ∅) "constructor.name" "").
  reflexivity.
Defined.

Lemma split_app sep a b :
  split sep (a +:+ String sep b) = (split sep a ++ split sep b)%list.
Proof.
  induction a as [|c a IH].
  - change ("" +:+ String sep b) with (String sep b).
    cbn [split app]. by rewrite Ascii.eqb_refl.
  - change (String c a +:+ String sep b) with (String c (a +:+ String sep b)).
    cbn [split]. rewrite IH. destruct (Ascii.eqb c sep); [done|].
    destruct (split sep a) as [|piece pieces] eqn:Ha; [|done].
    by apply split_not_nil in Ha.
Qed.

Lemma descend_app segments segments' v :
  descend (segments ++ segments') v = descend segments v ≫= descend segments'.
Proof.
  revert v. induction segments as [|k segments IH]; intros v; [done|].
  cbn [app descend]. destruct (entry v k); [apply IH | done].
Qed.

(** X3.  Strings are leaves: when the key [a.b] leads to a string, the key
    [a] leads to something that is not a string, and [t(a, fallback)] gives
    the fallback or [a] itself. *)
Theorem t_misses_on_prefix translations a b s fallback :
  descend (split "." (a +:+ "." +:+ b)) translations = Some (VString s) ->
  t translations a fallback = Returned (or_else fallback a).
Proof.
  change (a +:+ "." +:+ b) with (a +:+ String "." b).
  rewrite split_app, descend_app. intros Hab.
  rewrite t_is_descent. unfold t_descent.
  destruct (descend (split "." a) translations) as [v|]; [|done].
  cbn [mbind option_bind] in Hab.
  destruct (split "." b) as [|k rest] eqn:Hb; [by apply split_not_nil in Hb|].
  cbn [descend] in Hab. by destruct v.
Qed.

(** The theorem on the sample table: [page.title] is a string, [page] is
    not. *)
Lemma t_misses_on_prefix_witness :
  descend (split "." ("page" +:+ "." +:+ "title")) en_table = Some (VString "Hello") /\
  t en_table "page" "none" = Returned "none".
Proof.
  split; [reflexivity|].
  apply (t_misses_on_prefix en_table "page" "title" "Hello" "none"). reflexivity.
Defined.

(** ** [loadTranslations], every case *)

Ltac load_cases f net w :=
  unfold loadTranslations, fetch, json_of; run;
  destruct (net (locale_url (currentLanguage w))) as [|status json] eqn:Hnet;
  cbn -[String.eqb];
  [| destruct (checks_status f && negb (ok (status, json))) eqn:Hstatus;
     cbn -[String.eqb];
     [| destruct json as [v|]; cbn -[String.eqb] ] ].

(** X4.  When [loadTranslations()] returns, the mapping is the parsed body
    of the response to the request for the language that is active
    afterwards, or else the retrieval failed while the active language was
    not ['en'] and both the mapping and the active language are as
    before. *)
Theorem loadTranslations_returned_table f net w w' :
  loadTranslations f net w = (Returned tt, w') ->
  (exists status,
     net (locale_url (currentLanguage w')) = Response status (Some (translations w')))
  \/ (fails f (net (locale_url (currentLanguage w))) = true /\
      currentLanguage w <> "en" /\
      currentLanguage w' = currentLanguage w /\
      translations w' = translations w).
Proof.
  load_cases f net w.
  3:{ intros [= <-]. left. exists status. cbn. by rewrite Hnet. }
  all: destruct (String.eqb_spec (currentLanguage w) "en") as [Hen|Hen];
    cbn -[String.eqb].
  all: try (intros [= <-]; right; cbn; rewrite ?Hstatus;
            by repeat split; rewrite ?bool_decide_true).
  all: destruct (net "/js/locales/zh.json") as [|status' [v'|]] eqn:Hzh; cbn;
    try done.
  all: intros [= <-]; left; exists status'; by cbn.
Qed.

(** The theorem where the English resource is missing and the active
    language is English. *)
Lemma loadTranslations_returned_table_witness :
  let w := with_currentLanguage "en" (constructed ∅ page_with_toggle) in
  let w' := snd (loadTranslations public_js_i18n_js net_without_en w) in
  loadTranslations public_js_i18n_js net_without_en w = (Returned tt, w') /\
  ((exists status,
      net_without_en (locale_url (currentLanguage w'))
      = Response status (Some (translations w')))
   \/ (fails public_js_i18n_js (net_without_en (locale_url (currentLanguage w))) = true /\
       currentLanguage w <> "en" /\
       currentLanguage w' = currentLanguage w /\
       translations w' = translations w)).
Proof.
  intros w w'.
  assert (loadTranslations public_js_i18n_js net_without_en w = (Returned tt, w'))
    as Hrun by reflexivity.
  split; [exact Hrun|].
  apply (loadTranslations_returned_table public_js_i18n_js net_without_en w w' Hrun).
Defined.

(** X5.  [loadTranslations()] throws in one case only: the active language
    is ['en'], the retrieval of the English resource fails and the retry
    for the Chinese one fails too.  The active language has then already
    been made ['zh'] and the mapping is as before. *)
Theorem loadTranslations_throws_iff f net w :
  ((exists e, fst (loadTranslations f net w) = Thrown e) <->
   currentLanguage w = "en" /\
   fails f (net (locale_url "en")) = true /\
   retry_fails (net "/js/locales/zh.json") = true) /\
  (forall e, fst (loadTranslations f net w) = Thrown e ->
     currentLanguage (snd (loadTranslations f net w)) = "zh" /\
     translations (snd (loadTranslations f net w)) = translations w).
Proof.
  destruct (fails f (net (locale_url (currentLanguage w)))) eqn:Hfails.
  - rewrite loadTranslations_catch by done. cbn zeta.
    destruct (String.eqb_spec (currentLanguage w) "en") as [Hen|Hen].
    + rewrite Hen in Hfails. unfold fetch, json_of. run.
      destruct (net "/js/locales/zh.json") as [|status [v|]] eqn:Hzh; cbn;
        (split; [split|]);
        solve [ intros [e [=]] | intros (_ & _ & [=]) | intros e [=]
              | eauto | done ].
    + cbn. split; [split|]; [intros [e [=]] | by intros [? _] | intros e [=]].
  - assert (exists v, fst (loadTranslations f net w) = Returned tt /\
              net (locale_url (currentLanguage w)) = v) as (r & Hret & Hnet).
    { eexists. split; [|reflexivity].
      unfold loadTranslations, fetch, json_of. run. unfold fails in Hfails.
      destruct (net (locale_url (currentLanguage w))) as [|status json];
        [done|]. apply orb_false_iff in Hfails as [Hstatus Hjson].
      cbn -[String.eqb]. rewrite Hstatus. cbn -[String.eqb].
      destruct json; [done|]. by rewrite bool_decide_true in Hjson. }
    rewrite Hret. split; [split|]; [intros [e [=]] | | intros e [=]].
    intros (Hen & Hfails' & _). rewrite Hen in Hfails. congruence.
Qed.

(** X6.  [loadTranslations()] requests the resource of the active language
    and, only when that language is ['en'] and the retrieval fails,
    [zh.json] after it; it makes no other request, writes nothing to the
    preference store and touches neither the document nor the timers. *)
Theorem loadTranslations_requests f net w :
  let w' := snd (loadTranslations f net w) in
  effects w' =
    (effects w ++
     Fetch (locale_url (currentLanguage w)) ::
     (if String.eqb (currentLanguage w) "en"
         && fails f (net (locale_url (currentLanguage w)))
      then [Fetch "/js/locales/zh.json"] else []))%list /\
  localStorage w' = localStorage w /\
  document w' = document w /\
  timers w' = timers w /\
  isInitialized w' = isInitialized w.
Proof.
  cbn zeta. unfold fails. load_cases f net w.
  3:{ rewrite andb_false_r. done. }
  all: rewrite ?bool_decide_true by done; rewrite ?andb_true_r, ?orb_true_r.
  all: destruct (String.eqb (currentLanguage w) "en"); cbn; [|done].
  all: destruct (net "/js/locales/zh.json") as [|status' [v'|]]; cbn;
    by rewrite <- ?app_assoc.
Qed.

(** The theorem where nothing answers and the active language is English. *)
Lemma loadTranslations_throws_iff_witness :
  let w := with_currentLanguage "en" (constructed ∅ page_with_toggle) in
  (exists e, fst (loadTranslations public_js_i18n_js net_down w) = Thrown e) /\
  currentLanguage (snd (loadTranslations public_js_i18n_js net_down w)) = "zh" /\
  translations (snd (loadTranslations public_js_i18n_js net_down w)) = VObject ∅.
Proof.
  intros w.
  destruct (loadTranslations_throws_iff public_js_i18n_js net_down w)
    as [Hiff Hstate].
  assert (exists e, fst (loadTranslations public_js_i18n_js net_down w) = Thrown e)
    as [e He] by (apply Hiff; repeat split).
  split; [by exists e|]. apply (Hstate e He).
Defined.

(** ** [switchLanguage] with another language *)



(** X7.  [switchLanguage(lang)] with a language other than the active one
    stores [lang] as the preference whatever becomes of the load, also
    when the load falls back to Chinese; a class constructed on that store
    starts with [lang] as its active language (any [lang] but the empty
    string, for which the constructor takes ['zh']). *)
Theorem switchLanguage_stores_request f net lang w d :
  lang <> currentLanguage w ->
  let w' := snd (switchLanguage f net lang w) in
  localStorage w' = <["language" := lang]> (localStorage w) /\
  currentLanguage (constructed (localStorage w') d) = or_else lang "zh".
Proof.
  intros Hlang w'. subst w'. rewrite switchLanguage_other_language by done.
  destruct (bind_document_only (loadTranslations f net)
              (fun _ => applyLanguage f;; updateLanguageSwitcher f)
              (setItem "language" lang (with_currentLanguage lang w))
              (after_load_document_only f)) as [d' ->].
  cbn [localStorage with_document].
  rewrite (proj1 (loadTranslations_frame f net _)). cbn [localStorage setItem].
  split; [done|]. unfold constructed. cbn [currentLanguage localStorage].
  by rewrite lookup_insert_eq.
Qed.

(** The theorem where the English resource is missing: the preference is
    ['en'] although the active language fell back to ['zh']. *)
Lemma switchLanguage_stores_request_witness :
  let w := constructed ∅ page_with_toggle in
  let w' := snd (switchLanguage public_js_i18n_js net_without_en "en" w) in
  "en" <> currentLanguage w /\
  currentLanguage w' = "zh" /\
  localStorage w' = <["language" := "en"]> (localStorage w) /\
  currentLanguage (constructed (localStorage w') page_with_toggle) = "en".
Proof.
  intros w w'.
  assert ("en" <> currentLanguage w) as Hother by discriminate.
  split; [exact Hother|]. split; [reflexivity|].
  apply (switchLanguage_stores_request public_js_i18n_js net_without_en "en" w
           page_with_toggle Hother).
Defined.



(** ** The passes of the title and placeholder bindings *)

Lemma markers_before_title tr e name :
  attr_binding_ok e = true ->
  name ∈ binding_markers ->
  attributes (after_attr tr (after_text tr e)) !! name = attributes e !! name.
Proof.
  intros Hok Hname. rewrite after_attr_attributes.
  - apply after_text_attributes. intros ->. revert Hname.
    unfold binding_markers. rewrite !elem_of_cons, elem_of_nil.
    by intros [|[|[|[|[]]]]].
  - intros attr key Hbinding Heq.
    rewrite (attr_binding_same e) in Hbinding by (by apply after_text_attributes).
    apply (attr_binding_ok_not_marker e attr key Hok Hbinding). by rewrite Heq.
Qed.

Lemma placeholder_set_placeholder e v : placeholder (set_placeholder e v) = Some v.
Proof.
  unfold placeholder, set_placeholder, is_input_like.
  destruct (String.eqb (tagName e) "INPUT" || String.eqb (tagName e) "TEXTAREA")
    eqn:Hinput; cbn [tagName with_attributes with_expando attributes expando];
    rewrite Hinput, lookup_insert_eq; done.
Qed.



(** X10.  Under the same conditions, after [applyLanguage()] every element
    with a placeholder binding has [t(key)] for placeholder: the pass of
    the placeholder bindings is the last to write it.  (On an input the
    placeholder is the attribute; on any other element it is a property
    of the object and the attribute is not written.) *)
Theorem applyLanguage_binds_placeholder f w :
  (logs_keys f = true -> nullish (translations w) = false) ->
  attr_bindings_ok (content (document w)) = true ->
  let tr := translations w in
  let d' := document (snd (applyLanguage f w)) in
  forall e children key,
    Elem e children ∈ all_nodes (content d') ->
    getAttribute e "data-i18n-placeholder" = Some key ->
    exists s,
      t tr key "" = Returned s /\
      placeholder e = Some s /\
      (is_input_like e = true -> getAttribute e "placeholder" = Some s).
Proof.
  intros Hkeys Hok tr d' e4 children4 key Hin. subst d'.
  rewrite (applyLanguage_runs f w Hkeys Hok) in Hin.
  cbn [snd document with_document content] in Hin.
  destruct (applyLanguage_elements tr (content (document w)) e4 children4 Hok Hin)
    as (e & children & Hin0 & -> & _).
  assert (attr_binding_ok e = true) as Hok_e
    by (by apply (proj1 (attr_bindings_ok_spec _) Hok e children)).
  assert ("data-i18n-placeholder" ∈ binding_markers) as Hmarker
    by (unfold binding_markers; rewrite !elem_of_cons; auto).
  unfold getAttribute.
  change (lowercase "data-i18n-placeholder") with "data-i18n-placeholder".
  change (lowercase "placeholder") with "placeholder".
  rewrite after_all_markers by done. intros Hkey.
  exists (t_descent tr key ""). split; [apply t_is_descent|].
  unfold after_all.
  set (e3 := after_title tr (after_attr tr (after_text tr e))).
  assert (attributes e3 !! "data-i18n-placeholder" = Some key) as Hkey3.
  { unfold e3. rewrite after_title_attributes by (by left).
    by rewrite markers_before_title. }
  unfold after_placeholder. rewrite Hkey3.
  split; [apply placeholder_set_placeholder|].
  unfold is_input_like at 1. rewrite set_placeholder_tagName.
  fold (is_input_like e3). intros Hinput.
  unfold set_placeholder. rewrite Hinput.
  cbn [attributes with_attributes]. apply lookup_insert_eq.
Qed.

(** The theorem on a page with a placeholder binding on an input. *)
Lemma applyLanguage_binds_placeholder_witness :
  let page := {| title := "";
                 content := [Elem (an_element "INPUT"
                                     [("data-i18n-placeholder", "page.title")]) []] |} in
  let w := with_translations en_table (constructed ∅ page) in
  nullish (translations w) = false /\
  attr_bindings_ok (content (document w)) = true /\
  forall e children key,
    Elem e children ∈ all_nodes (content (document (snd (applyLanguage public_js_i18n_js w)))) ->
    getAttribute e "data-i18n-placeholder" = Some key ->
    exists s,
      t en_table key "" = Returned s /\
      placeholder e = Some s /\
      (is_input_like e = true -> getAttribute e "placeholder" = Some s).
Proof.
  intros page w. split; [reflexivity|]. split; [reflexivity|].
  apply (applyLanguage_binds_placeholder public_js_i18n_js w);
    [intros _|]; reflexivity.
Defined.

(** ** When [applyLanguage] returns *)

(** In a visit that ran to its end and whose callback never assigns text,
    the callback returned on every element the selector matches. *)
Lemma forEach_list_returned selected callback l :
  (forall e e1 text, callback e <> Returned (e1, Some text)) ->
  Forall (fun n =>
    snd (forEach_node selected callback n) = None ->
    forall e children, Elem e children ∈ nodes_of n -> selected e = true ->
      exists r, callback e = Returned r) l ->
  snd (forEach selected callback l) = None ->
  forall e children, Elem e children ∈ all_nodes l -> selected e = true ->
    exists r, callback e = Returned r.
Proof.
  intros Hno_text. induction 1 as [|c rest Hc _ IHrest];
    [by intros _ e children ?%elem_of_nil|].
  rewrite forEach_cons.
  destruct (forEach_node selected callback c) as [c' [x|]] eqn:Hfc; [done|].
  destruct (forEach selected callback rest) as [rest' x'] eqn:Hfr.
  cbn [snd] in *. intros -> e children.
  rewrite all_nodes_cons, elem_of_app. intros [Hin|Hin]; eauto.
Qed.

Lemma forEach_node_returned selected callback n :
  (forall e e1 text, callback e <> Returned (e1, Some text)) ->
  snd (forEach_node selected callback n) = None ->
  forall e children, Elem e children ∈ nodes_of n -> selected e = true ->
    exists r, callback e = Returned r.
Proof.
  intros Hno_text.
  induction n as [data|e0 children0 IH] using node_nested_ind.
  { intros _ e children [=]%list_elem_of_singleton. }
  pose proof (forEach_list_returned selected callback children0 Hno_text IH)
    as Hlist.
  rewrite forEach_node_Elem.
  destruct (forEach selected callback children0) as [children1 x] eqn:Hfc.
  cbn [snd] in Hlist.
  destruct (selected e0) eqn:Hsel;
    [destruct (callback e0) as [[e1 [text|]]|y] eqn:Hcb|].
  - by destruct (Hno_text e0 e1 text).
  - cbn [snd]. intros -> e children. rewrite nodes_of_Elem, elem_of_cons.
    intros [[= -> ->]|Hin] Hsel'; [eauto | by apply (Hlist eq_refl e children)].
  - done.
  - cbn [snd]. intros -> e children. rewrite nodes_of_Elem, elem_of_cons.
    intros [[= -> ->]|Hin] Hsel'; [congruence | by apply (Hlist eq_refl e children)].
Qed.

Lemma forEach_returned selected callback l :
  (forall e e1 text, callback e <> Returned (e1, Some text)) ->
  snd (forEach selected callback l) = None ->
  forall e children, Elem e children ∈ all_nodes l -> selected e = true ->
    exists r, callback e = Returned r.
Proof.
  intros Hno_text. apply forEach_list_returned; [done|].
  apply Forall_forall. intros n _. by apply forEach_node_returned.
Qed.

Lemma translate_attr_no_text tr e e1 text :
  translate_attr tr e <> Returned (e1, Some text).
Proof.
  unfold translate_attr.
  destruct (getAttribute e "data-i18n-attr") as [marker|]; [|done].
  destruct (t_of _ _) as [found|y]; [|done]. cbn. unfold setAttribute.
  by destruct (valid_attribute_name _).
Qed.

(** The callback of the attribute bindings returns exactly on the usable
    markers. *)
Lemma translate_attr_returns_iff tr e :
  has_attribute "data-i18n-attr" e = true ->
  (exists r, translate_attr tr e = Returned r) <-> attr_binding_usable e = true.
Proof.
  intros [marker Hmarker]%has_attribute_true.
  unfold translate_attr, attr_binding_usable, attr_binding, getAttribute.
  change (lowercase "data-i18n-attr") with "data-i18n-attr". rewrite Hmarker.
  destruct (split ":" marker) as [|attr [|key rest]] eqn:Hsplit.
  - by apply split_not_nil in Hsplit.
  - cbn. split; [by intros [r [=]] | done].
  - cbn [lookup list_lookup default]. rewrite t_of_Some. cbn.
    unfold setAttribute. destruct (valid_attribute_name attr).
    + split; [done | eauto].
    + split; [by intros [r [=]] | done].
Qed.

Lemma attr_bindings_usable_spec l :
  attr_bindings_usable l = true <->
  forall e children, Elem e children ∈ all_nodes l -> attr_binding_usable e = true.
Proof.
  unfold attr_bindings_usable. rewrite forallb_forall. split.
  - intros H e children Hin%list_elem_of_In. apply (H _ Hin).
  - intros H [data|e children] Hin%list_elem_of_In; [done|]. eauto.
Qed.

Lemma attr_binding_usable_unmarked e :
  has_attribute "data-i18n-attr" e = false -> attr_binding_usable e = true.
Proof.
  intros Hnone%has_attribute_false. unfold attr_binding_usable. by rewrite Hnone.
Qed.

(** X11.  [applyLanguage()] returns exactly when the table is not [null]
    (where the file lists its keys) and, in the document as the pass of
    the plain text bindings leaves it, every attribute binding has a
    marker with its two pieces whose first is a name [setAttribute]
    accepts.  Otherwise it throws: a marker without a colon makes
    [t(undefined)] throw, a bad attribute name makes [setAttribute]
    throw. *)
Theorem applyLanguage_returns_iff f w :
  fst (applyLanguage f w) = Returned tt <->
  (logs_keys f = true -> nullish (translations w) = false) /\
  attr_bindings_usable (text_pass (translations w) (content (document w))) = true.
Proof.
  split.
  - destruct (applyLanguage f w) as [o w'] eqn:Hrun. cbn [fst]. intros ->.
    split.
    + intros Hlogs. revert Hrun. unfold applyLanguage. run. rewrite Hlogs.
      by destruct (translations w).
    + apply applyLanguage_returned in Hrun
        as (s & l1 & l2 & l3 & l4 & _ & H1 & H2 & _).
      assert (l1 = text_pass (translations w) (content (document w))) as <-
        by (unfold text_pass; by rewrite H1).
      apply attr_bindings_usable_spec. intros e children Hin.
      destruct (has_attribute "data-i18n-attr" e) eqn:Hsel;
        [|by apply attr_binding_usable_unmarked].
      apply (translate_attr_returns_iff (translations w) e Hsel).
      apply (forEach_returned (has_attribute "data-i18n-attr")
               (translate_attr (translations w)) l1) with (children := children);
        [apply translate_attr_no_text | by rewrite H2 | done | done].
  - intros [Hkeys Husable].
    assert (logs_keys f = true -> Object_keys (translations w) = Returned tt)
      as Hlisted.
    { intros Hlogs. specialize (Hkeys Hlogs). by destruct (translations w). }
    pose proof (text_pass_ends (translations w) (content (document w))) as H1.
    assert (snd (forEach (has_attribute "data-i18n-attr")
                   (translate_attr (translations w))
                   (text_pass (translations w) (content (document w)))) = None)
      as H2.
    { apply forEach_ends. intros e children Hin Hsel.
      apply (translate_attr_returns_iff (translations w) e Hsel).
      by apply (proj1 (attr_bindings_usable_spec _) Husable e children). }
    unfold applyLanguage, forEach_with. run.
    destruct (logs_keys f); [rewrite (Hlisted eq_refl)|];
      rewrite t_is_descent;
      cbn [document set_document_title with_document content title];
      rewrite H1; cbn [document with_document content title];
      destruct (forEach (has_attribute "data-i18n-attr") _ _) as [l2 x2];
      cbn [snd] in H2; subst x2;
      cbn [document with_document content title]; rewrite title_pass_ends;
      cbn [document with_document content title]; rewrite placeholder_pass_ends;
      reflexivity.
Qed.

(** The theorem on a page whose attribute binding has no colon:
    [applyLanguage()] does not return. *)
Lemma applyLanguage_returns_iff_witness :
  let page := {| title := "";
                 content := [Elem (an_element "A" [("data-i18n-attr", "title")]) []] |} in
  let w := with_translations en_table (constructed ∅ page) in
  attr_bindings_usable (text_pass (translations w) (content (document w))) = false /\
  fst (applyLanguage public_js_i18n_js w) <> Returned tt.
Proof.
  intros page w.
  assert (attr_bindings_usable (text_pass (translations w) (content (document w)))
          = false) as Hbad by reflexivity.
  split; [exact Hbad|].
  intros [_ Husable]%applyLanguage_returns_iff. congruence.
Defined.

(** ** The refresh of the label, twice *)

Lemma alter_at_twice g1 g2 l q :
  alter_at g1 (alter_at g2 l q) q = alter_at (g1 ∘ g2) l q.
Proof.
  revert l. induction q as [|i q IH]; [done|]. intros l.
  rewrite !alter_at_cons, list_alter_alter_eq.
  apply list_alter_ext; [|reflexivity]. intros n _. cbn [compose].
  destruct q as [|j q]; [done|]. cbn [alter_below].
  destruct n as [|e children]; [done|]. f_equal. apply IH.
Qed.

Lemma assign_text_twice s n : assign_text s (assign_text s n) = assign_text s n.
Proof. by destruct n. Qed.

Lemma set_textContent_twice d q s :
  set_textContent (set_textContent d q s) q s = set_textContent d q s.
Proof.
  unfold set_textContent. cbn [title content]. f_equal.
  rewrite alter_at_twice. revert q. generalize (content d).
  intros l q. revert l. induction q as [|i q IH]; [done|]. intros l.
  rewrite !alter_at_cons. apply list_alter_ext; [|reflexivity]. intros n _.
  destruct q as [|j q]; [apply assign_text_twice|]. cbn [alter_below].
  destruct n as [|e children]; [done|]. f_equal. apply IH.
Qed.

(** X12.  [updateLanguageSwitcher()] a second time does what the first
    did and changes nothing more: the same outcome, the same state. *)
Theorem updateLanguageSwitcher_twice f w :
  updateLanguageSwitcher f (snd (updateLanguageSwitcher f w)) =
  updateLanguageSwitcher f w.
Proof.
  destruct (toggle_label (document w)) as [path|] eqn:Hpath.
  - rewrite (updateLanguageSwitcher_label f w path Hpath). cbn [snd].
    pose proof Hpath as (q & r & e & children & Hq & He & Hr & ->)%toggle_label_Some.
    destruct (set_label_text (document w) q r e children
                (label_for (currentLanguage w)) Hq He Hr) as (_ & _ & Hpath' & _).
    fold (label_for (currentLanguage w)).
    rewrite (updateLanguageSwitcher_label f _ (q ++ r)%list)
      by (cbn [document with_document]; exact Hpath').
    cbn [document with_document currentLanguage].
    fold (label_for (currentLanguage w)).
    by rewrite set_textContent_twice.
  - by rewrite (updateLanguageSwitcher_without_label f w Hpath).
Qed.

(** ** [init] *)

Lemma loadTranslations_flag f net w :
  isInitialized (snd (loadTranslations f net w)) = isInitialized w.
Proof.
  load_cases f net w.
  3: done.
  all: destruct (String.eqb (currentLanguage w) "en"); cbn; [|done].
  all: by destruct (net "/js/locales/zh.json") as [|status' [v'|]].
Qed.

(** [init], whatever its outcome: past the retrieval it writes the
    document, and when it returns the flag (in the file that has one) and
    the delayed refresh. *)
Lemma init_run f net w :
  let wl := snd (loadTranslations f net w) in
  exists d,
    snd (init f net w) =
    match fst (init f net w) with
    | Returned _ =>
        with_timers (timers wl ++ [RefreshSwitcher])%list
          (if sets_flag f then with_isInitialized true (with_document d wl)
           else with_document d wl)
    | Thrown _ => with_document d wl
    end.
Proof.
  unfold init. destruct (loadTranslations f net w) as [[[]|x] wl] eqn:Hl; cbn [snd].
  2:{ rewrite (bind_thrown _ _ _ _ _ Hl). exists (document wl).
      cbn [fst snd]. by rewrite with_document_same. }
  rewrite (bind_returned _ _ _ _ _ Hl).
  destruct (applyLanguage_document_only f wl) as [da Hda].
  destruct (applyLanguage f wl) as [[[]|x] wa] eqn:Ha; cbn [snd] in Hda; subst wa.
  2:{ rewrite (bind_thrown _ _ _ _ _ Ha). by exists da. }
  rewrite (bind_returned _ _ _ _ _ Ha).
  rewrite (bind_returned _ _ _ _ _ (setupLanguageSwitcher_run _)).
  cbn [document with_document].
  destruct (getElementById da "language-switcher") as [q|];
    [exists (addEventListener da q ToggleLanguage) | exists da];
    unfold setTimeout; run; by destruct (sets_flag f).
Qed.

(** X13.  [init()] never writes the preference store, asks the network
    for nothing beyond what [loadTranslations()] asks, and leaves the
    active language and the mapping as the retrieval left them.  When it
    returns it has scheduled the refresh of the label once and, in the
    file that has the flag, set it; when it throws, nothing is scheduled
    and the flag is as before. *)
Theorem init_frame f net w :
  let wl := snd (loadTranslations f net w) in
  let w0 := snd (init f net w) in
  localStorage w0 = localStorage w /\
  effects w0 = effects wl /\
  currentLanguage w0 = currentLanguage wl /\
  translations w0 = translations wl /\
  match fst (init f net w) with
  | Returned _ =>
      timers w0 = (timers w ++ [RefreshSwitcher])%list /\
      isInitialized w0 = sets_flag f || isInitialized w
  | Thrown _ => timers w0 = timers w /\ isInitialized w0 = isInitialized w
  end.
Proof.
  intros wl w0. subst wl w0.
  destruct (init_run f net w) as [d Hrun].
  destruct (loadTranslations_frame f net w) as (Hstore & _ & Htimers).
  pose proof (loadTranslations_flag f net w) as Hflag.
  rewrite Hrun. destruct (fst (init f net w)) as [[]|x].
  - destruct (sets_flag f); cbn; by rewrite Hstore, Htimers, ?Hflag.
  - cbn. by rewrite Hstore, Htimers, Hflag.
Qed.

(** ** The refresh that [init] schedules *)

Lemma with_timers_same w : with_timers (timers w) w = w.
Proof. by destruct w. Qed.

(** X14.  Whatever preference the store holds: when [init()] has returned
    and the toggle has its label, the refresh that runs once the delay has
    passed makes the label name the other language, ['English'] when the
    active language is ['zh'] and ['中文'] for any other, and no callback
    is left waiting. *)
Theorem refresh_after_init f net storage doc :
  let w0 := new_I18n f net storage doc in
  fst (init f net (constructed storage doc)) = Returned tt ->
  is_Some (toggle_label (document w0)) ->
  toggle_label_text (document (run_timers f w0)) =
    Some (if String.eqb (currentLanguage w0) "zh" then "English" else "中文") /\
  currentLanguage (run_timers f w0) = currentLanguage w0 /\
  timers (run_timers f w0) = [].
Proof.
  intros w0 Hinit Hlabel. subst w0. unfold new_I18n in *.
  destruct (init_run f net (constructed storage doc)) as [d Hrun].
  destruct (loadTranslations_frame f net (constructed storage doc))
    as (_ & _ & Htimers).
  rewrite Hinit in Hrun.
  set (w0 := snd (init f net (constructed storage doc))) in *.
  assert (timers w0 = [RefreshSwitcher]) as Hone.
  { rewrite Hrun. destruct (sets_flag f); cbn; by rewrite Htimers. }
  assert (run_timers f w0 = snd (updateLanguageSwitcher f (with_timers [] w0)))
    as -> by (unfold run_timers; by rewrite Hone).
  destruct (updateLanguageSwitcher_refreshes f (with_timers [] w0) Hlabel)
    as (_ & Hframe & Htext & _).
  split; [exact Htext|]. rewrite Hframe. done.
Qed.

(** The theorem on the sample page, the store holding ['en']. *)
Lemma refresh_after_init_witness :
  let w0 := new_I18n public_js_i18n_js net_both {[ "language" := "en" ]} page_with_toggle in
  toggle_label_text (document (run_timers public_js_i18n_js w0)) = Some "中文" /\
  currentLanguage (run_timers public_js_i18n_js w0) = "en" /\
  timers (run_timers public_js_i18n_js w0) = [].
Proof.
  intros w0.
  assert (fst (init public_js_i18n_js net_both
                 (constructed {[ "language" := "en" ]} page_with_toggle)) = Returned tt)
    as Hinit by (by vm_compute).
  assert (is_Some (toggle_label (document w0))) as Hlabel
    by (by vm_compute; eexists).
  exact (refresh_after_init public_js_i18n_js net_both {[ "language" := "en" ]}
           page_with_toggle Hinit Hlabel).
Defined.

(** ** What a visit keeps, whatever its outcome *)

Section Keeps.
Variable P : element -> Prop.
Variable selected : element -> bool.
Variable callback : element -> outcome (element * option string).
Hypothesis callback_keeps : forall e e1 o, callback e = Returned (e1, o) -> P e -> P e1.

Lemma forEach_list_keeps l :
  Forall (fun n =>
    (forall e children, Elem e children ∈ nodes_of n -> P e) ->
    forall e' children',
      Elem e' children' ∈ nodes_of (fst (forEach_node selected callback n)) -> P e') l ->
  (forall e children, Elem e children ∈ all_nodes l -> P e) ->
  forall e' children',
    Elem e' children' ∈ all_nodes (fst (forEach selected callback l)) -> P e'.
Proof using Type.
  induction 1 as [|c rest Hc _ IHrest]; [done|].
  intros Hall e' children'. rewrite forEach_cons.
  assert (forall e children, Elem e children ∈ nodes_of c -> P e) as Hall_c.
  { intros e children Hin. apply (Hall e children).
    rewrite all_nodes_cons, elem_of_app. by left. }
  assert (forall e children, Elem e children ∈ all_nodes rest -> P e) as Hall_rest.
  { intros e children Hin. apply (Hall e children).
    rewrite all_nodes_cons, elem_of_app. by right. }
  specialize (Hc Hall_c). specialize (IHrest Hall_rest).
  destruct (forEach_node selected callback c) as [c' [x|]]; cbn [fst] in Hc.
  - cbn [fst]. rewrite all_nodes_cons, elem_of_app. intros [Hin|Hin]; eauto.
  - destruct (forEach selected callback rest) as [rest' x']. cbn [fst] in *.
    rewrite all_nodes_cons, elem_of_app. intros [Hin|Hin]; eauto.
Qed.

Lemma forEach_node_keeps n :
  (forall e children, Elem e children ∈ nodes_of n -> P e) ->
  forall e' children',
    Elem e' children' ∈ nodes_of (fst (forEach_node selected callback n)) -> P e'.
Proof using callback_keeps.
  induction n as [data|e0 children0 IH] using node_nested_ind; [done|].
  intros Hall.
  assert (P e0) as He0 by (apply (Hall e0 children0), nodes_of_self).
  assert (forall e children, Elem e children ∈ all_nodes children0 -> P e) as Hbelow.
  { intros e children Hin. apply (Hall e children).
    rewrite nodes_of_Elem. by apply list_elem_of_further. }
  pose proof (forEach_list_keeps children0 IH Hbelow) as Hlist.
  rewrite forEach_node_Elem.
  destruct (forEach selected callback children0) as [children1 x]. cbn [fst] in Hlist.
  destruct (selected e0);
    [destruct (callback e0) as [[e1 [text|]]|y] eqn:Hcb|]; cbn [fst];
    intros e' children'; rewrite nodes_of_Elem, elem_of_cons.
  - intros [[= -> ->]|Hin]; [eauto | by apply no_element_in_text_children in Hin].
  - intros [[= -> ->]|Hin]; eauto.
  - intros [[= -> ->]|Hin]; eauto.
  - intros [[= -> ->]|Hin]; eauto.
Qed.

Lemma forEach_keeps l :
  (forall e children, Elem e children ∈ all_nodes l -> P e) ->
  forall e' children',
    Elem e' children' ∈ all_nodes (fst (forEach selected callback l)) -> P e'.
Proof using callback_keeps.
  apply forEach_list_keeps, Forall_forall. intros n _. apply forEach_node_keeps.
Qed.
End Keeps.

Lemma keeps_bind {A B : Type} (Q : Document -> Prop) (m : M A) (k : A -> M B) :
  keeps Q m -> (forall a, keeps Q (k a)) -> keeps Q (m ≫= k).
Proof.
  intros Hm Hk w HQ. unfold mbind, M_bind. specialize (Hm w HQ).
  destruct (m w) as [[a|e] w1]; [by apply Hk | done].
Qed.

Lemma keeps_same {A : Type} (Q : Document -> Prop) (m : M A) :
  (forall w, document (snd (m w)) = document w) -> keeps Q m.
Proof. intros Hm w HQ. by rewrite Hm. Qed.

Lemma forEach_with_keeps_listener_free name callback :
  (forall e e1 o, callback e = Returned (e1, o) -> listeners e1 = listeners e) ->
  keeps (fun d => listener_free (content d) = true) (forEach_with name callback).
Proof.
  intros Hcb w. unfold forEach_with.
  rewrite !listener_free_spec. intros Hfree.
  pose proof (forEach_keeps (fun e => listeners e = []) (has_attribute name) callback)
    as Hkeeps.
  destruct (forEach (has_attribute name) callback (content (document w)))
    as [nodes x] eqn:Hrun.
  cbn [snd document with_document content].
  specialize (Hkeeps (fun e e1 o H He => eq_trans (Hcb e e1 o H) He)
                (content (document w)) Hfree).
  by rewrite Hrun in Hkeeps.
Qed.

(** [applyLanguage] registers no listener, also when it throws. *)
Lemma applyLanguage_keeps_listener_free f :
  keeps (fun d => listener_free (content d) = true) (applyLanguage f).
Proof.
  unfold applyLanguage.
  apply keeps_bind; [by apply keeps_same|]. intros tr.
  apply keeps_bind; [destruct (logs_keys f); by apply keeps_same|]. intros _.
  apply keeps_bind; [by apply keeps_same|]. intros s.
  apply keeps_bind; [by intros w|]. intros _.
  apply keeps_bind;
    [apply forEach_with_keeps_listener_free, translate_text_listeners|]. intros _.
  apply keeps_bind;
    [apply forEach_with_keeps_listener_free, translate_attr_listeners|]. intros _.
  apply keeps_bind;
    [apply forEach_with_keeps_listener_free, translate_title_listeners|]. intros _.
  apply forEach_with_keeps_listener_free, translate_placeholder_listeners.
Qed.

(** X15.  When [init()] throws on a page none of whose elements carries a
    listener, it has registered none, scheduled nothing and left the flag
    alone: a click on the toggle then does nothing, and no callback waits
    for a delay. *)
Theorem init_thrown_leaves_toggle_inert f net w x :
  listener_free (content (document w)) = true ->
  timers w = [] ->
  fst (init f net w) = Thrown x ->
  let w0 := snd (init f net w) in
  listener_free (content (document w0)) = true /\
  timers w0 = [] /\
  isInitialized w0 = isInitialized w /\
  click_toggle f net w0 = w0 /\
  run_timers f w0 = w0.
Proof.
  intros Hfree Htimers Hthrown w0. subst w0.
  destruct (loadTranslations_frame f net w) as (_ & Hdoc & Htimers_l).
  pose proof (loadTranslations_flag f net w) as Hflag.
  assert (exists wl, listener_free (content (document wl)) = true /\
                     timers wl = [] /\ isInitialized wl = isInitialized w /\
                     snd (init f net w) = wl) as (w0 & Hfree0 & Htimers0 & Hflag0 & ->).
  { revert Hthrown. unfold init.
    destruct (loadTranslations f net w) as [[[]|y] wl] eqn:Hl; cbn [snd] in *.
    2:{ rewrite (bind_thrown _ _ _ _ _ Hl). intros _. exists wl. cbn [snd].
        by rewrite Hdoc, Htimers_l, Hflag. }
    rewrite (bind_returned _ _ _ _ _ Hl).
    pose proof (applyLanguage_keeps_listener_free f wl) as Hkeeps.
    rewrite Hdoc in Hkeeps. specialize (Hkeeps Hfree).
    destruct (applyLanguage_document_only f wl) as [da Hda].
    destruct (applyLanguage f wl) as [[[]|y] wa] eqn:Ha; cbn [snd] in *.
    2:{ rewrite (bind_thrown _ _ _ _ _ Ha). intros _. exists wa. cbn [snd].
        split; [done|]. rewrite Hda. cbn. by rewrite Htimers_l, Hflag, Htimers. }
    rewrite (bind_returned _ _ _ _ _ Ha).
    rewrite (bind_returned _ _ _ _ _ (setupLanguageSwitcher_run _)).
    unfold setTimeout. run. by destruct (sets_flag f). }
  split; [done|]. split; [done|]. split; [done|]. split.
  - unfold click_toggle.
    destruct (getElementById (document w0) "language-switcher") as [q|]; [|done].
    destruct (node_at (content (document w0)) q) as [[data|e children]|] eqn:He;
      [done| |done].
    apply node_at_all_nodes in He.
    by rewrite (proj1 (listener_free_spec _) Hfree0 e children He).
  - unfold run_timers. rewrite Htimers0. cbn [foldl].
    rewrite <- Htimers0. apply with_timers_same.
Qed.

(** The theorem on a page whose toggle has an attribute binding without a
    colon. *)
Lemma init_thrown_leaves_toggle_inert_witness :
  let page := {| title := "";
                 content := [Elem (an_element "BUTTON"
                                     [("id", "language-switcher");
                                      ("data-i18n-attr", "title")]) []] |} in
  let w := constructed ∅ page in
  let w0 := snd (init public_js_i18n_js net_both w) in
  fst (init public_js_i18n_js net_both w) =
    Thrown (TypeError "Cannot read properties of undefined (reading 'split')") /\
  (listener_free (content (document w0)) = true /\
   timers w0 = [] /\
   isInitialized w0 = isInitialized w /\
   click_toggle public_js_i18n_js net_both w0 = w0 /\
   run_timers public_js_i18n_js w0 = w0).
Proof.
  intros page w.
  assert (listener_free (content (document w)) = true) as Hfree by reflexivity.
  assert (timers w = []) as Htimers by reflexivity.
  assert (fst (init public_js_i18n_js net_both w) =
          Thrown (TypeError "Cannot read properties of undefined (reading 'split')"))
    as Hthrown by (by vm_compute).
  split; [exact Hthrown|].
  exact (init_thrown_leaves_toggle_inert public_js_i18n_js net_both w _
           Hfree Htimers Hthrown).
Defined.

(** ** A preference whose resource does not load *)

(** X16.  The store holds a language other than ['en'] whose resource
    fails to load, be it ['zh'] itself or a language there is no resource
    for, and the attribute bindings of the page are well formed.  [init()]
    then returns all the same: the language of the store stays the active
    one, the mapping stays empty, the one request is the one for that
    language, and the title of the document is the key ['page.title']
    itself. *)
Theorem init_with_failing_preference f net storage doc lang :
  storage !! "language" = Some lang ->
  lang <> "" ->
  lang <> "en" ->
  fails f (net (locale_url lang)) = true ->
  attr_bindings_ok (content doc) = true ->
  let w0 := new_I18n f net storage doc in
  fst (init f net (constructed storage doc)) = Returned tt /\
  currentLanguage w0 = lang /\
  translations w0 = VObject ∅ /\
  effects w0 = [Fetch (locale_url lang)] /\
  title (document w0) = "page.title".
Proof.
  intros Hstored Hlang Hen Hfails Hok w0. subst w0. unfold new_I18n.
  set (w := constructed storage doc).
  assert (currentLanguage w = lang) as Hcurrent.
  { unfold w, constructed. cbn [currentLanguage]. rewrite Hstored.
    by destruct lang. }
  assert (loadTranslations f net w = (Returned tt, record_fetch (locale_url lang) w))
    as Hl.
  { rewrite <- Hcurrent. apply loadTranslations_logged; by rewrite Hcurrent. }
  set (wl := record_fetch (locale_url lang) w) in *.
  assert (applyLanguage f wl =
          (Returned tt,
           with_document
             {| title := t_descent (translations wl) "page.title" "";
                content := four_passes (translations wl) (content (document wl)) |}
             wl)) as Ha by (by apply applyLanguage_runs).
  unfold init.
  rewrite (bind_returned _ _ _ _ _ Hl), (bind_returned _ _ _ _ _ Ha).
  rewrite (bind_returned _ _ _ _ _ (setupLanguageSwitcher_run _)).
  cbn [document with_document].
  unfold setTimeout. run.
  destruct (getElementById _ "language-switcher"); by destruct (sets_flag f).
Qed.

(** The theorem with ['fr'] in the store, no resource answering. *)
Lemma init_with_failing_preference_witness :
  let w0 := new_I18n public_js_i18n_js net_down {[ "language" := "fr" ]} page_with_toggle in
  fst (init public_js_i18n_js net_down
         (constructed {[ "language" := "fr" ]} page_with_toggle)) = Returned tt /\
  currentLanguage w0 = "fr" /\
  translations w0 = VObject ∅ /\
  effects w0 = [Fetch (locale_url "fr")] /\
  title (document w0) = "page.title".
Proof.
  apply (init_with_failing_preference public_js_i18n_js net_down
           {[ "language" := "fr" ]} page_with_toggle "fr");
    [reflexivity | discriminate | discriminate | reflexivity | reflexivity].
Defined.

(** ** The four callbacks, twice *)

Lemma element_eq (e e' : element) :
  tagName e = tagName e' -> attributes e = attributes e' ->
  expando e = expando e' -> listeners e = listeners e' -> e = e'.
Proof. destruct e, e'. cbn. by intros -> -> -> ->. Qed.

Lemma lookup_write o (m : gmap string string) i :
  write o m !! i =
  match o with
  | Some (k, v) => if decide (k = i) then Some v else m !! i
  | None => m !! i
  end.
Proof.
  destruct o as [[k v]|]; [|done]. cbn [write].
  destruct (decide (k = i)) as [->|Hne];
    [apply lookup_insert_eq | by apply lookup_insert_ne].
Qed.

(** Writing the same entries a second time, in the same order, changes
    nothing. *)
Lemma write_twice o1 o2 o3 o4 (m : gmap string string) :
  write o4 (write o3 (write o2 (write o1
    (write o4 (write o3 (write o2 (write o1 m))))))) =
  write o4 (write o3 (write o2 (write o1 m))).
Proof.
  apply map_eq. intros i. rewrite !lookup_write.
  destruct o1 as [[k1 v1]|], o2 as [[k2 v2]|], o3 as [[k3 v3]|], o4 as [[k4 v4]|];
    repeat case_decide; done.
Qed.

Lemma after_text_write tr e :
  attributes (after_text tr e) = write (text_write tr e) (attributes e) /\
  expando (after_text tr e) = expando e /\
  listeners (after_text tr e) = listeners e.
Proof.
  unfold after_text, text_write, set_placeholder.
  destruct (attributes e !! "data-i18n"); [|done].
  by destruct (is_input_like e).
Qed.

Lemma after_attr_write tr e :
  attributes (after_attr tr e) = write (attr_write tr e) (attributes e) /\
  expando (after_attr tr e) = expando e /\
  listeners (after_attr tr e) = listeners e.
Proof.
  unfold after_attr, attr_write. by destruct (attr_binding e) as [[attr key]|].
Qed.

Lemma after_title_write tr e :
  attributes (after_title tr e) = write (title_write tr e) (attributes e) /\
  expando (after_title tr e) = expando e /\
  listeners (after_title tr e) = listeners e.
Proof.
  unfold after_title, title_write, set_title.
  by destruct (attributes e !! "data-i18n-title").
Qed.

Lemma after_placeholder_write tr e :
  attributes (after_placeholder tr e) = write (placeholder_write tr e) (attributes e) /\
  expando (after_placeholder tr e) = write (expando_write tr e) (expando e) /\
  listeners (after_placeholder tr e) = listeners e.
Proof.
  unfold after_placeholder, placeholder_write, expando_write, set_placeholder.
  destruct (attributes e !! "data-i18n-placeholder"); [|done].
  by destruct (is_input_like e).
Qed.

(** The writes are read off the markers and the kind of the element. *)
Lemma writes_same tr e x :
  tagName x = tagName e ->
  (forall name, name ∈ binding_markers -> attributes x !! name = attributes e !! name) ->
  text_write tr x = text_write tr e /\
  attr_write tr x = attr_write tr e /\
  title_write tr x = title_write tr e /\
  placeholder_write tr x = placeholder_write tr e /\
  expando_write tr x = expando_write tr e.
Proof.
  intros Htag Hmarkers.
  assert (is_input_like x = is_input_like e) as Hinput
    by (unfold is_input_like; by rewrite Htag).
  assert (attr_binding x = attr_binding e) as Hbinding.
  { apply attr_binding_same, Hmarkers. unfold binding_markers.
    rewrite !elem_of_cons. auto. }
  unfold text_write, attr_write, title_write, placeholder_write, expando_write.
  rewrite Hinput, Hbinding, !Hmarkers
    by (unfold binding_markers; rewrite !elem_of_cons; auto).
  done.
Qed.

Lemma marker_not_placeholder name : name ∈ binding_markers -> name <> "placeholder".
Proof.
  unfold binding_markers. rewrite !elem_of_cons, elem_of_nil.
  by intros [->|[->|[->|[->|[]]]]].
Qed.

Lemma marker_not_title name : name ∈ binding_markers -> name <> "title".
Proof.
  unfold binding_markers. rewrite !elem_of_cons, elem_of_nil.
  by intros [->|[->|[->|[->|[]]]]].
Qed.

(** Past the pass of the plain text bindings the markers are as before. *)
Lemma after_text_markers tr e name :
  name ∈ binding_markers -> attributes (after_text tr e) !! name = attributes e !! name.
Proof. intros Hname. by apply after_text_attributes, marker_not_placeholder. Qed.

Lemma after_attr_markers tr e name :
  attr_binding_ok e = true ->
  name ∈ binding_markers -> attributes (after_attr tr e) !! name = attributes e !! name.
Proof.
  intros Hok Hname. apply after_attr_attributes. intros attr key Hbinding Heq.
  subst name. by apply (attr_binding_ok_not_marker e attr key).
Qed.

Lemma after_title_markers tr e name :
  name ∈ binding_markers -> attributes (after_title tr e) !! name = attributes e !! name.
Proof. intros Hname. apply after_title_attributes. left. by apply marker_not_title. Qed.

(** The maps of the element after the four callbacks. *)
Lemma after_all_writes tr e :
  attr_binding_ok e = true ->
  attributes (after_all tr e) =
    write (placeholder_write tr e) (write (title_write tr e)
      (write (attr_write tr e) (write (text_write tr e) (attributes e)))) /\
  expando (after_all tr e) = write (expando_write tr e) (expando e) /\
  listeners (after_all tr e) = listeners e /\
  tagName (after_all tr e) = tagName e.
Proof.
  intros Hok. unfold after_all.
  set (e1 := after_text tr e). set (e2 := after_attr tr e1).
  set (e3 := after_title tr e2).
  destruct (after_text_write tr e) as (A1 & X1 & L1). fold e1 in A1, X1, L1.
  destruct (after_attr_write tr e1) as (A2 & X2 & L2). fold e2 in A2, X2, L2.
  destruct (after_title_write tr e2) as (A3 & X3 & L3). fold e3 in A3, X3, L3.
  destruct (after_placeholder_write tr e3) as (A4 & X4 & L4).
  assert (attr_binding_ok e1 = true) as Hok1
    by (unfold e1; by rewrite after_text_binding_ok).
  destruct (writes_same tr e e1) as (_ & W2 & _);
    [apply after_text_tagName | intros name; apply after_text_markers |].
  destruct (writes_same tr e e2) as (_ & _ & W3 & _).
  { unfold e2, e1. by rewrite after_attr_tagName, after_text_tagName. }
  { intros name Hname. unfold e2. rewrite after_attr_markers by done.
    by apply after_text_markers. }
  destruct (writes_same tr e e3) as (_ & _ & _ & W4 & W5).
  { unfold e3, e2, e1.
    by rewrite after_title_tagName, after_attr_tagName, after_text_tagName. }
  { intros name Hname. unfold e3, e2. rewrite after_title_markers by done.
    rewrite after_attr_markers by done. by apply after_text_markers. }
  rewrite A4, A3, A2, A1, X4, X3, X2, X1, L4, L3, L2, L1, W2, W3, W4, W5.
  split; [done|]. split; [done|]. split; [done|].
  unfold e3, e2, e1.
  by rewrite after_placeholder_tagName, after_title_tagName, after_attr_tagName,
    after_text_tagName.
Qed.

Lemma after_all_binding_ok tr e :
  attr_binding_ok e = true -> attr_binding_ok (after_all tr e) = true.
Proof.
  intros Hok. unfold attr_binding_ok.
  rewrite after_all_binding, after_all_markers
    by (done || unfold binding_markers; rewrite !elem_of_cons; auto).
  exact Hok.
Qed.

Lemma after_all_twice tr e :
  attr_binding_ok e = true -> after_all tr (after_all tr e) = after_all tr e.
Proof.
  intros Hok.
  destruct (after_all_writes tr e Hok) as (A & X & L & T).
  destruct (after_all_writes tr (after_all tr e) (after_all_binding_ok tr e Hok))
    as (A' & X' & L' & T').
  destruct (writes_same tr e (after_all tr e) T) as (W1 & W2 & W3 & W4 & W5);
    [intros name; by apply after_all_markers|].
  rewrite W1, W2, W3, W4, A in A'. rewrite W5, X in X'.
  apply element_eq; [done| | |done].
  - rewrite A', A. apply write_twice.
  - rewrite X', X. apply (write_twice None None None).
Qed.

(** ** The four visits as one pass *)

(** A visit that ran to its end has visited each tree of the list. *)
Lemma forEach_map selected callback l :
  snd (forEach selected callback l) = None ->
  fst (forEach selected callback l) =
  map (fun n => fst (forEach_node selected callback n)) l.
Proof.
  induction l as [|c rest IH]; [done|]. rewrite forEach_cons. cbn [map].
  destruct (forEach_node selected callback c) as [c' [x|]]; [done|].
  destruct (forEach selected callback rest) as [rest' x']. cbn [fst snd] in *.
  intros Hends. by rewrite IH.
Qed.

Lemma text_node tr e children :
  fst (forEach_node (has_attribute "data-i18n") (translate_text tr) (Elem e children)) =
  Elem (after_text tr e)
    (match attributes e !! "data-i18n" with
     | Some key =>
         if is_input_like e then text_pass tr children
         else text_children (t_descent tr key "")
     | None => text_pass tr children
     end).
Proof.
  rewrite forEach_node_Elem, text_pass_ends.
  destruct (has_attribute "data-i18n" e) eqn:Hsel.
  - apply has_attribute_true in Hsel as [key Hkey].
    rewrite (translate_text_eval tr e key Hkey), Hkey.
    by destruct (is_input_like e).
  - apply has_attribute_false in Hsel. unfold after_text. by rewrite Hsel.
Qed.

Lemma attr_node tr e children :
  attr_binding_ok e = true ->
  (forall e' children', Elem e' children' ∈ all_nodes children ->
     attr_binding_ok e' = true) ->
  fst (forEach_node (has_attribute "data-i18n-attr") (translate_attr tr)
         (Elem e children)) =
  Elem (after_attr tr e) (attr_pass tr children).
Proof.
  intros Hok Hbelow. rewrite forEach_node_Elem, attr_pass_ends by done.
  destruct (has_attribute "data-i18n-attr" e) eqn:Hsel.
  - by rewrite translate_attr_eval.
  - apply has_attribute_false in Hsel. unfold after_attr, attr_binding.
    by rewrite Hsel.
Qed.

Lemma title_node tr e children :
  fst (forEach_node (has_attribute "data-i18n-title") (translate_title tr)
         (Elem e children)) =
  Elem (after_title tr e) (title_pass tr children).
Proof.
  rewrite forEach_node_Elem, title_pass_ends.
  destruct (has_attribute "data-i18n-title" e) eqn:Hsel.
  - apply has_attribute_true in Hsel as [key Hkey].
    by rewrite (translate_title_eval tr e key Hkey).
  - apply has_attribute_false in Hsel. unfold after_title. by rewrite Hsel.
Qed.

Lemma placeholder_node tr e children :
  fst (forEach_node (has_attribute "data-i18n-placeholder") (translate_placeholder tr)
         (Elem e children)) =
  Elem (after_placeholder tr e) (placeholder_pass tr children).
Proof.
  rewrite forEach_node_Elem, placeholder_pass_ends.
  destruct (has_attribute "data-i18n-placeholder" e) eqn:Hsel.
  - apply has_attribute_true in Hsel as [key Hkey].
    by rewrite (translate_placeholder_eval tr e key Hkey).
  - apply has_attribute_false in Hsel. unfold after_placeholder. by rewrite Hsel.
Qed.

Lemma four_passes_text_children tr s :
  placeholder_pass tr (title_pass tr (attr_pass tr (text_children s))) = text_children s.
Proof.
  unfold placeholder_pass, title_pass, attr_pass.
  by do 3 (rewrite forEach_text_children; cbn [fst]).
Qed.

(** The four visits of a list are the four visits of each of its trees. *)
Lemma four_passes_map tr l :
  attr_bindings_ok l = true ->
  four_passes tr l =
  map (fun n =>
         fst (forEach_node (has_attribute "data-i18n-placeholder")
                (translate_placeholder tr)
           (fst (forEach_node (has_attribute "data-i18n-title") (translate_title tr)
             (fst (forEach_node (has_attribute "data-i18n-attr") (translate_attr tr)
               (fst (forEach_node (has_attribute "data-i18n") (translate_text tr)
                  n)))))))) l.
Proof.
  intros Hok. unfold four_passes.
  unfold placeholder_pass at 1. rewrite forEach_map by (by rewrite placeholder_pass_ends).
  unfold title_pass at 1. rewrite forEach_map by (by rewrite title_pass_ends).
  unfold attr_pass at 1.
  rewrite forEach_map
    by (rewrite attr_pass_ends; [done|];
        intros e children; by apply text_pass_keeps_bindings_ok).
  unfold text_pass at 1. rewrite forEach_map by (by rewrite text_pass_ends).
  by rewrite !map_map.
Qed.

Lemma attr_bindings_ok_cons c rest :
  attr_bindings_ok (c :: rest) = attr_bindings_ok [c] && attr_bindings_ok rest.
Proof.
  unfold attr_bindings_ok. rewrite all_nodes_cons, forallb_app.
  f_equal. change (all_nodes [c]) with (nodes_of c ++ [])%list.
  by rewrite app_nil_r.
Qed.

Lemma attr_bindings_ok_Elem e children :
  attr_bindings_ok [Elem e children] = attr_binding_ok e && attr_bindings_ok children.
Proof.
  unfold attr_bindings_ok. change (all_nodes [Elem e children])
    with ((Elem e children :: all_nodes children) ++ [])%list.
  by rewrite app_nil_r.
Qed.

Lemma four_passes_rebind_list tr l :
  Forall (fun n => attr_bindings_ok [n] = true -> four_passes tr [n] = [rebind tr n]) l ->
  attr_bindings_ok l = true -> four_passes tr l = map (rebind tr) l.
Proof.
  induction 1 as [|c rest Hc _ IHrest]; [done|].
  rewrite attr_bindings_ok_cons. intros [Hok_c Hok_rest]%andb_true_iff.
  specialize (Hc Hok_c). specialize (IHrest Hok_rest).
  assert (attr_bindings_ok (c :: rest) = true) as Hok
    by (rewrite attr_bindings_ok_cons; by rewrite Hok_c, Hok_rest).
  rewrite four_passes_map in Hc, IHrest |- * by done.
  cbn [map] in *. injection Hc as Hc. by rewrite Hc, IHrest.
Qed.

Lemma four_passes_rebind_node tr n :
  attr_bindings_ok [n] = true -> four_passes tr [n] = [rebind tr n].
Proof.
  induction n as [data|e children IH] using node_nested_ind; [done|].
  rewrite attr_bindings_ok_Elem. intros [Hok_e Hok_below]%andb_true_iff.
  pose proof (four_passes_rebind_list tr children IH Hok_below) as Hchildren.
  rewrite four_passes_map by (rewrite attr_bindings_ok_Elem; by rewrite Hok_e, Hok_below).
  cbn [map rebind]. f_equal. rewrite text_node.
  rewrite attr_node.
  2: by rewrite after_text_binding_ok.
  2:{ intros e' children'.
      destruct (attributes e !! "data-i18n") as [key|];
        [destruct (is_input_like e)|];
        try (by apply text_pass_keeps_bindings_ok).
      by intros ?%no_element_in_text_children. }
  rewrite title_node, placeholder_node. fold (after_all tr e). f_equal.
  destruct (attributes e !! "data-i18n") as [key|];
    [destruct (is_input_like e)|];
    try exact Hchildren.
  apply four_passes_text_children.
Qed.

Lemma four_passes_rebind tr l :
  attr_bindings_ok l = true -> four_passes tr l = map (rebind tr) l.
Proof.
  apply four_passes_rebind_list, Forall_forall. intros n _.
  apply four_passes_rebind_node.
Qed.

(** X17.  When the table is not [null] where its keys are listed and the
    attribute bindings are well formed, the four visits of
    [applyLanguage()] come to one pass over the document: each element
    becomes what the four callbacks make of it one after the other, the
    children of an element with a plain text binding that is not an input
    are replaced by the text of its key, and below it no binding is
    visited. *)
Theorem applyLanguage_is_one_pass f w :
  (logs_keys f = true -> nullish (translations w) = false) ->
  attr_bindings_ok (content (document w)) = true ->
  applyLanguage f w =
  (Returned tt,
   with_document
     {| title := t_descent (translations w) "page.title" "";
        content := map (rebind (translations w)) (content (document w)) |} w).
Proof.
  intros Hkeys Hok. rewrite (applyLanguage_runs f w Hkeys Hok).
  by rewrite four_passes_rebind.
Qed.

(** The theorem on a page where a binding lies below a plain text
    binding. *)
Lemma applyLanguage_is_one_pass_witness :
  let page := {| title := "";
                 content :=
                   [Elem (an_element "P" [("data-i18n", "page.title")])
                      [Elem (an_element "B" [("data-i18n-title", "page.title")]) []]] |} in
  let w := with_translations en_table (constructed ∅ page) in
  content (document (snd (applyLanguage public_js_i18n_js w))) =
    [Elem (an_element "P" [("data-i18n", "page.title")]) [Text "Hello"]].
Proof.
  intros page w.
  rewrite (applyLanguage_is_one_pass public_js_i18n_js w); [reflexivity| |reflexivity].
  intros _. reflexivity.
Defined.

(** ** [applyLanguage], twice *)

Lemma map_rebind_text_children tr s :
  map (rebind tr) (text_children s) = text_children s.
Proof. by destruct s. Qed.

Lemma rebind_twice_list tr l :
  Forall (fun n => attr_bindings_ok [n] = true ->
                   rebind tr (rebind tr n) = rebind tr n) l ->
  attr_bindings_ok l = true ->
  map (rebind tr) (map (rebind tr) l) = map (rebind tr) l.
Proof.
  induction 1 as [|c rest Hc _ IHrest]; [done|].
  rewrite attr_bindings_ok_cons. intros [Hok_c Hok_rest]%andb_true_iff.
  cbn [map]. by rewrite Hc, IHrest.
Qed.

Lemma rebind_twice tr n :
  attr_bindings_ok [n] = true -> rebind tr (rebind tr n) = rebind tr n.
Proof.
  induction n as [data|e children IH] using node_nested_ind; [done|].
  rewrite attr_bindings_ok_Elem. intros [Hok_e Hok_below]%andb_true_iff.
  pose proof (rebind_twice_list tr children IH Hok_below) as Hchildren.
  cbn [rebind]. rewrite after_all_twice by done. f_equal.
  rewrite after_all_markers
    by (done || unfold binding_markers; rewrite !elem_of_cons; auto).
  rewrite after_all_input_like.
  destruct (attributes e !! "data-i18n") as [key|];
    [destruct (is_input_like e)|];
    try exact Hchildren.
  reflexivity.
Qed.

Lemma rebind_keeps_bindings_ok tr n :
  attr_bindings_ok [n] = true -> attr_bindings_ok [rebind tr n] = true.
Proof.
  induction n as [data|e children IH] using node_nested_ind; [done|].
  rewrite attr_bindings_ok_Elem. intros [Hok_e Hok_below]%andb_true_iff.
  cbn [rebind]. rewrite attr_bindings_ok_Elem, after_all_binding_ok by done.
  cbn [andb].
  assert (attr_bindings_ok (map (rebind tr) children) = true) as Hchildren.
  { clear Hok_e. induction IH as [|c rest Hc _ IHrest]; [done|].
    rewrite attr_bindings_ok_cons in Hok_below.
    apply andb_true_iff in Hok_below as [Hok_c Hok_rest].
    cbn [map]. rewrite attr_bindings_ok_cons. by rewrite Hc, IHrest. }
  destruct (attributes e !! "data-i18n") as [key|];
    [destruct (is_input_like e)|];
    try exact Hchildren.
  by destruct (t_descent tr key "").
Qed.

(** X18.  Under the same conditions [applyLanguage()] a second time
    changes nothing: it returns again and the state, document included, is
    the one the first call left. *)
Theorem applyLanguage_twice f w :
  (logs_keys f = true -> nullish (translations w) = false) ->
  attr_bindings_ok (content (document w)) = true ->
  applyLanguage f (snd (applyLanguage f w)) = applyLanguage f w.
Proof.
  intros Hkeys Hok.
  rewrite (applyLanguage_runs f w Hkeys Hok), four_passes_rebind by done.
  cbn [snd].
  assert (attr_bindings_ok (map (rebind (translations w)) (content (document w)))
          = true) as Hok'.
  { revert Hok. generalize (content (document w)).
    induction l as [|c rest IH]; [done|].
    rewrite attr_bindings_ok_cons. intros [Hok_c Hok_rest]%andb_true_iff.
    cbn [map]. rewrite attr_bindings_ok_cons.
    by rewrite rebind_keeps_bindings_ok, IH. }
  rewrite applyLanguage_runs by done.
  cbn [translations document with_document content title].
  rewrite four_passes_rebind by done.
  rewrite rebind_twice_list; [by destruct w|..|done].
  apply Forall_forall. intros n _. apply rebind_twice.
Qed.

(** The theorem on the sample page. *)
Lemma applyLanguage_twice_witness :
  let w := with_translations en_table (constructed ∅ page_with_bindings) in
  applyLanguage public_js_i18n_js (snd (applyLanguage public_js_i18n_js w)) =
  applyLanguage public_js_i18n_js w.
Proof.
  intros w. apply (applyLanguage_twice public_js_i18n_js w); [|reflexivity].
  intros _. reflexivity.
Defined.

(** ** The listener of the toggle *)



(** ** A switch to English when no resource loads *)



(** ** Two clicks *)

Lemma newLang_other w : newLang w <> currentLanguage w.
Proof.
  unfold newLang.
  destruct (String.eqb_spec (currentLanguage w) "zh") as [->|Hne]; [done|].
  congruence.
Qed.

(** The click listener when the resource of the language it asks for
    loads: whatever becomes of the bindings, the state apart from the
    document is the one the load left. *)
Lemma on_click_loads f net w v :
  loads (net (locale_url (newLang w))) v ->
  exists d,
    snd (on_click f net w) =
    with_document d
      (with_translations v
         (record_fetch (locale_url (newLang w))
            (setItem "language" (newLang w) (with_currentLanguage (newLang w) w)))).
Proof.
  intros Hloads. unfold on_click.
  rewrite switchLanguage_other_language by apply newLang_other.
  destruct (bind_document_only (loadTranslations f net)
              (fun _ => applyLanguage f;; updateLanguageSwitcher f)
              (setItem "language" (newLang w) (with_currentLanguage (newLang w) w))
              (after_load_document_only f)) as [d ->].
  exists d. by rewrite (loadTranslations_loads f net _ v).
Qed.

(** X21.  While both resources load, the click listener run twice from a
    supported language comes back to it: the active language and the
    preference are the first language again and the mapping is its
    resource, whether or not the bindings could be applied. *)
Theorem on_click_twice f net w en_map zh_map :
  loads (net (locale_url "en")) en_map ->
  loads (net (locale_url "zh")) zh_map ->
  currentLanguage w = "zh" \/ currentLanguage w = "en" ->
  let w2 := snd (on_click f net (snd (on_click f net w))) in
  currentLanguage w2 = currentLanguage w /\
  localStorage w2 !! "language" = Some (currentLanguage w) /\
  translations w2 = (if String.eqb (currentLanguage w) "zh" then zh_map else en_map).
Proof.
  intros Hen Hzh Hlang w2. subst w2.
  assert (exists v1, loads (net (locale_url (newLang w))) v1) as [v1 H1].
  { unfold newLang. destruct Hlang as [->| ->]; cbn; eauto. }
  destruct (on_click_loads f net w v1 H1) as [d1 ->].
  set (w1 := with_document d1 _).
  assert (currentLanguage w1 = newLang w) as Hlang1 by reflexivity.
  assert (newLang w1 = currentLanguage w) as Hback.
  { unfold newLang at 1. rewrite Hlang1. unfold newLang.
    by destruct Hlang as [->| ->]. }
  assert (loads (net (locale_url (newLang w1)))
            (if String.eqb (currentLanguage w) "zh" then zh_map else en_map)) as H2.
  { rewrite Hback. by destruct Hlang as [->| ->]. }
  destruct (on_click_loads f net w1 _ H2) as [d2 ->].
  cbn [currentLanguage localStorage translations with_document with_translations
       record_fetch setItem with_currentLanguage].
  rewrite Hback. split; [done|]. split; [apply lookup_insert_eq | done].
Qed.

(** The theorem on the sample page, from Chinese. *)
Lemma on_click_twice_witness :
  let w := constructed ∅ page_with_toggle in
  let w2 := snd (on_click public_js_i18n_js net_both
                   (snd (on_click public_js_i18n_js net_both w))) in
  currentLanguage w2 = "zh" /\
  localStorage w2 !! "language" = Some "zh" /\
  translations w2 = zh_table.
Proof.
  intros w.
  apply (on_click_twice public_js_i18n_js net_both w en_table zh_table).
  - exists 200%nat. by split.
  - exists 200%nat. by split.
  - by left.
Defined.
